(** * ReviewEnhancer: a shallow embedding of [ReviewEnhancer.py]

    The script adds a [wordCount] key to every review of every
    [Reviews*.json] file of a directory.  This development embeds its four
    functions ([calculate_word_count], [process_reviews_file],
    [find_reviews_files], [main]) together with the parts of the Python
    runtime they go through (truthiness, [str.split], [dict], the [json]
    codec, UTF-8 text files, [glob]), and proves properties of the
    embedding.

    Conventions.
    - A Python [str] is a list of Unicode code points ([list N]); lone
      surrogates are legal code points of a [str], as in CPython.
    - A [dict] is an association list in insertion order.
    - Raising is explicit: fallible operations return a [result].
    - [print] appends a structured line to the output.
    - [float] objects are kept abstract (class [PyFloat]). *)

From Stdlib Require Import List ZArith NArith Lia Bool String Ascii.
From Stdlib Require Import Strings.Byte DecimalString.
From Stdlib Require Import Sorting.Sorted Sorting.Permutation.
From Stdlib Require Numbers.DecimalPos.
Import ListNotations.

Set Implicit Arguments.
Set Warnings "-register-all".
Open Scope Z_scope.

(* ================================================================== *)
(** * Strings *)

Definition pystr := list N.

(** An ASCII literal as a Python string. *)
Definition lit (s : string) : pystr := map N_of_ascii (list_ascii_of_string s).

Definition str_eqb (a b : pystr) : bool :=
  if list_eq_dec N.eq_dec a b then true else false.

(** One character, by its ASCII letter. *)
Definition ch (a : ascii) : N := N_of_ascii a.
Definition quote : N := 34.
Definition backslash : N := 92.

Fixpoint starts_with (prefix s : pystr) : bool :=
  match prefix, s with
  | [], _ => true
  | p :: prefix', c :: s' => (p =? c)%N && starts_with prefix' s'
  | _ :: _, [] => false
  end.

(** [str.isspace] on one code point: the Unicode white space characters
    CPython's [str.split()] separates on. *)
Definition isspace (c : N) : bool :=
  ((9 <=? c) && (c <=? 13) || (28 <=? c) && (c <=? 32)
   || (c =? 133) || (c =? 160) || (c =? 5760)
   || (8192 <=? c) && (c <=? 8202)
   || (c =? 8232) || (c =? 8233) || (c =? 8239) || (c =? 8287)
   || (c =? 12288))%N.

(** [text.split()]: skip a run of white space, then take characters up to
    the next white space.  [cur] is the word being read (reversed), if
    any. *)
Fixpoint split_from (cur : option pystr) (s : pystr) : list pystr :=
  match s with
  | [] => match cur with None => [] | Some w => [rev w] end
  | c :: s' =>
      if isspace c then
        match cur with
        | None => split_from None s'
        | Some w => rev w :: split_from None s'
        end
      else
        match cur with
        | None => split_from (Some [c]) s'
        | Some w => split_from (Some (c :: w)) s'
        end
  end.

Definition str_split (s : pystr) : list pystr := split_from None s.

(** [str.lstrip()], [str.rstrip()], [str.strip()] without argument. *)
Fixpoint lstrip (s : pystr) : pystr :=
  match s with
  | [] => []
  | c :: s' => if isspace c then lstrip s' else s
  end.

Definition rstrip (s : pystr) : pystr := rev (lstrip (rev s)).
Definition strip (s : pystr) : pystr := rstrip (lstrip s).

(* ================================================================== *)
(** * Exceptions and results *)

(** The types of the objects [json.load] builds. *)
Inductive pytype := TNoneType | TBool | TInt | TFloat | TStr | TList | TDict.

(** The exceptions the program can meet. *)
Inductive exn :=
| AttributeError (t : pytype) (attr : string)
| JSONDecodeError                       (* message and position left out *)
| IntDigitsError                        (* ValueError of [int(str)] *)
| UnicodeDecodeError
| UnicodeEncodeError (c : N)
| RecursionError
| FileNotFoundError (path : pystr)
| IsADirectoryError (path : pystr)
| NotADirectoryError (path : pystr)
| PermissionError (path : pystr).

(** The classes named in the [except] clauses. *)
Inductive exn_class := Cls_JSONDecodeError | Cls_IOError | Cls_Exception.

(** [isinstance(e, cls)], following the built-in hierarchy:
    [JSONDecodeError <: ValueError], [Unicode*Error <: ValueError],
    [IOError] is [OSError], everything here is an [Exception]. *)
Definition isinstance_exn (e : exn) (cls : exn_class) : bool :=
  match cls, e with
  | Cls_Exception, _ => true
  | Cls_JSONDecodeError, JSONDecodeError => true
  | Cls_IOError, (FileNotFoundError _ | IsADirectoryError _
                 | NotADirectoryError _ | PermissionError _) => true
  | _, _ => false
  end.

Inductive result (A : Type) :=
| Ok (a : A)
| Raise (e : exn).
Arguments Ok {A} a.
Arguments Raise {A} e.

Definition rbind {A B} (r : result A) (k : A -> result B) : result B :=
  match r with Ok a => k a | Raise e => Raise e end.

Notation "x <- c ;; k" := (rbind c (fun x => k))
  (at level 61, c at next level, right associativity).
Notation "' p <- c ;; k" := (rbind c (fun x => let 'p := x in k))
  (at level 61, p pattern, c at next level, right associativity).

(* ================================================================== *)
(** * Text files: UTF-8 and newlines *)

Definition byte_of (n : N) : byte :=
  match Byte.of_N n with Some b => b | None => x00 end.

Definition is_cont (x : N) : bool := ((128 <=? x) && (x <=? 191))%N.

(** The [utf-8] codec, [errors='strict'], decoding: shortest forms only,
    no surrogates, nothing above U+10FFFF. *)
Fixpoint utf8_decode (bs : list byte) : result pystr :=
  match bs with
  | [] => Ok []
  | b0 :: t0 =>
      let x0 := Byte.to_N b0 in
      if (x0 <? 128)%N then s <- utf8_decode t0 ;; Ok (x0 :: s)
      else
        match t0 with
        | [] => Raise UnicodeDecodeError
        | b1 :: t1 =>
            let x1 := Byte.to_N b1 in
            if ((194 <=? x0) && (x0 <=? 223))%N then
              if is_cont x1 then
                s <- utf8_decode t1 ;;
                Ok (((x0 - 192) * 64 + (x1 - 128))%N :: s)
              else Raise UnicodeDecodeError
            else
              match t1 with
              | [] => Raise UnicodeDecodeError
              | b2 :: t2 =>
                  let x2 := Byte.to_N b2 in
                  if ((224 <=? x0) && (x0 <=? 239))%N then
                    if (if (x0 =? 224)%N then ((160 <=? x1) && (x1 <=? 191))%N
                        else if (x0 =? 237)%N then ((128 <=? x1) && (x1 <=? 159))%N
                        else is_cont x1)
                       && is_cont x2
                    then
                      s <- utf8_decode t2 ;;
                      Ok (((x0 - 224) * 4096 + (x1 - 128) * 64 + (x2 - 128))%N
                          :: s)
                    else Raise UnicodeDecodeError
                  else
                    match t2 with
                    | [] => Raise UnicodeDecodeError
                    | b3 :: t3 =>
                        let x3 := Byte.to_N b3 in
                        if ((240 <=? x0) && (x0 <=? 244))%N
                           && (if (x0 =? 240)%N
                               then ((144 <=? x1) && (x1 <=? 191))%N
                               else if (x0 =? 244)%N
                               then ((128 <=? x1) && (x1 <=? 143))%N
                               else is_cont x1)
                           && is_cont x2 && is_cont x3
                        then
                          s <- utf8_decode t3 ;;
                          Ok (((x0 - 240) * 262144 + (x1 - 128) * 4096
                               + (x2 - 128) * 64 + (x3 - 128))%N :: s)
                        else Raise UnicodeDecodeError
                    end
              end
        end
  end.

(** Encoding one character: a surrogate cannot be encoded.  (A [str]
    has no code point above U+10FFFF; the model refuses them too.) *)
Definition utf8_encode_char (c : N) : result (list byte) :=
  if (c <? 128)%N then Ok [byte_of c]
  else if (c <? 2048)%N then
    Ok [byte_of (192 + c / 64); byte_of (128 + c mod 64)]%N
  else if ((55296 <=? c) && (c <=? 57343))%N then Raise (UnicodeEncodeError c)
  else if (c <? 65536)%N then
    Ok [byte_of (224 + c / 4096); byte_of (128 + (c / 64) mod 64);
        byte_of (128 + c mod 64)]%N
  else if (c <? 1114112)%N then
    Ok [byte_of (240 + c / 262144); byte_of (128 + (c / 4096) mod 64);
        byte_of (128 + (c / 64) mod 64); byte_of (128 + c mod 64)]%N
  else Raise (UnicodeEncodeError c).

Fixpoint utf8_encode (s : pystr) : result (list byte) :=
  match s with
  | [] => Ok []
  | c :: s' =>
      b <- utf8_encode_char c ;;
      bs <- utf8_encode s' ;;
      Ok (b ++ bs)
  end.

(** Reading in text mode with [newline=None]: a carriage return, with
    the line feed after it if any, is read as one line feed.  (Writing
    leaves line feeds as they are on POSIX.) *)
Fixpoint universal_newlines (s : pystr) : pystr :=
  match s with
  | [] => []
  | c :: r =>
      if (c =? 13)%N then
        10%N :: match r with
                | d :: r' =>
                    if (d =? 10)%N then universal_newlines r'
                    else universal_newlines r
                | [] => []
                end
      else c :: universal_newlines r
  end.

(* ================================================================== *)
(** * The file system *)

(** A tree of directories and regular files; no symbolic links.  A file
    carries whether the process may read and write it. *)
Inductive node :=
| File (readable writable : bool) (content : list byte)
| Dir (entries : list (pystr * node)).

Record world := World { root : node; cwd : list pystr }.

Fixpoint lookup_entry (entries : list (pystr * node)) (name : pystr)
  : option node :=
  match entries with
  | [] => None
  | (k, n) :: rest => if str_eqb k name then Some n else lookup_entry rest name
  end.

(** The node at an absolute, normalised path. *)
Fixpoint get_node (n : node) (p : list pystr) : option node :=
  match p with
  | [] => Some n
  | c :: p' =>
      match n with
      | Dir entries =>
          match lookup_entry entries c with
          | Some child => get_node child p'
          | None => None
          end
      | File _ _ _ => None
      end
  end.

(** Apply [f] to the entry called [name], or add [fresh] when there is
    none. *)
Fixpoint update_entry (entries : list (pystr * node)) (name : pystr)
    (f : node -> node) (fresh : list (pystr * node)) : list (pystr * node) :=
  match entries with
  | [] => fresh
  | (k, child) :: rest =>
      if str_eqb k name then (k, f child) :: rest
      else (k, child) :: update_entry rest name f fresh
  end.

(** Replace the node at [p], or add it to its parent directory when the
    parent exists and has no such entry. *)
Fixpoint set_node (n : node) (p : list pystr) (new : node) : node :=
  match p with
  | [] => new
  | c :: p' =>
      match n with
      | Dir entries =>
          Dir (update_entry entries c (fun child => set_node child p' new)
                 match p' with [] => [(c, new)] | _ => [] end)
      | File _ _ _ => n
      end
  end.

(** The components of a path: [str.split('/')]. *)
Fixpoint split_slash (cur : pystr) (s : pystr) : list pystr :=
  match s with
  | [] => [rev cur]
  | c :: s' =>
      if (c =? ch "/")%N then rev cur :: split_slash [] s'
      else split_slash (c :: cur) s'
  end.

Definition dot : pystr := lit ".".
Definition dotdot : pystr := lit "..".

(** Path resolution: every component is looked up in a directory. *)
Fixpoint walk (r : node) (cur : list pystr) (comps : list pystr)
    (path : pystr) : result (list pystr) :=
  match comps with
  | [] => Ok cur
  | c :: rest =>
      match get_node r cur with
      | Some (Dir _) =>
          if str_eqb c [] || str_eqb c dot then walk r cur rest path
          else if str_eqb c dotdot then walk r (removelast cur) rest path
          else walk r (cur ++ [c]) rest path
      | Some (File _ _ _) => Raise (NotADirectoryError path)
      | None => Raise (FileNotFoundError path)
      end
  end.

Definition resolve (w : world) (path : pystr) : result (list pystr) :=
  match path with
  | [] => Raise (FileNotFoundError path)
  | c :: _ =>
      walk (root w) (if (c =? ch "/")%N then [] else cwd w)
           (split_slash [] path) path
  end.

Definition stat (w : world) (path : pystr) : result node :=
  p <- resolve w path ;;
  match get_node (root w) p with
  | Some n => Ok n
  | None => Raise (FileNotFoundError path)
  end.

(** [os.path.lexists], [os.path.isdir] *)
Definition lexists (w : world) (path : pystr) : bool :=
  match stat w path with Ok _ => true | Raise _ => false end.

Definition isdir (w : world) (path : pystr) : bool :=
  match stat w path with Ok (Dir _) => true | _ => false end.

(** [os.scandir(path)]: the entries with [entry.is_dir()]. *)
Definition scandir (w : world) (path : pystr)
  : result (list (pystr * bool)) :=
  n <- stat w path ;;
  match n with
  | Dir entries =>
      Ok (map (fun e => (fst e, match snd e with Dir _ => true | _ => false end))
              entries)
  | File _ _ _ => Raise (NotADirectoryError path)
  end.

(* ================================================================== *)
(** * [fnmatch]: shell patterns *)

(** What [fnmatch.translate] turns a pattern into, one item per regular
    expression piece: [*], [?], a character, a character class with its
    single characters and its ranges, and the class nothing matches. *)
Inductive ptoken :=
| PStar
| PAny
| PChar (c : N)
| PClass (negated : bool) (singles : pystr) (ranges : list (N * N))
| PNever.

Fixpoint find_from (c : N) (s : pystr) (k : nat) : option nat :=
  match s, k with
  | [], _ => None
  | x :: s', O =>
      if (x =? c)%N then Some O else option_map S (find_from c s' O)
  | _ :: s', S k' => option_map S (find_from c s' k')
  end.

(** The [while True] loop that cuts [stuff] at the hyphens that stand
    for a range; the last chunk may be empty. *)
Fixpoint range_chunks (fuel : nat) (stuff : pystr) (i k : nat) : list pystr :=
  match fuel with
  | O => [skipn i stuff]
  | S fuel' =>
      match find_from (ch "-") stuff k with
      | None => [skipn i stuff]
      | Some k' =>
          firstn (k' - i) (skipn i stuff)
          :: range_chunks fuel' stuff (k' + 1) (k' + 3)
      end
  end.

(** [if chunk: chunks.append(chunk) else: chunks[-1] += '-'] *)
Fixpoint close_chunks (chunks : list pystr) : list pystr :=
  match chunks with
  | [] => []
  | [c] => [c]
  | [c; []] => [c ++ [ch "-"]]
  | c :: rest => c :: close_chunks rest
  end.

(** Removing the empty ranges, from the last pair of chunks to the
    first. *)
Fixpoint remove_empty_ranges (chunks : list pystr) : list pystr :=
  match chunks with
  | [] => []
  | c :: rest =>
      match remove_empty_ranges rest with
      | [] => [c]
      | d :: rest' =>
          if (hd 0 d <? last c 0)%N then (removelast c ++ tl d) :: rest'
          else c :: d :: rest'
      end
  end.

(** The characters and ranges of the joined chunks: two neighbouring
    chunks contribute the range from the last character of the first to
    the first character of the second. *)
Fixpoint class_items (skip_first : bool) (chunks : list pystr)
  : pystr * list (N * N) :=
  match chunks with
  | [] => ([], [])
  | c :: rest =>
      let body := if skip_first then tl c else c in
      match rest with
      | [] => (body, [])
      | d :: _ =>
          let (singles, ranges) := class_items true rest in
          (removelast body ++ singles, (last c 0%N, hd 0%N d) :: ranges)
      end
  end.

Definition bracket_class (stuff : pystr) : ptoken :=
  let chunks :=
    match find_from (ch "-") stuff 0 with
    | None => [stuff]
    | Some _ =>
        let k := if starts_with (lit "!") stuff then 2%nat else 1%nat in
        remove_empty_ranges
          (close_chunks (range_chunks (List.length stuff) stuff 0 k))
    end in
  match chunks with
  | [] | [[]] => PNever
  | first :: rest =>
      if str_eqb first (lit "!") && match rest with [] => true | _ => false end
      then PAny
      else if starts_with (lit "!") first then
        let (singles, ranges) := class_items false (tl first :: rest) in
        PClass true singles ranges
      else
        let (singles, ranges) := class_items false chunks in
        PClass false singles ranges
  end.

Fixpoint span_until (c : N) (s : pystr) : option (pystr * pystr) :=
  match s with
  | [] => None
  | x :: s' =>
      if (x =? c)%N then Some ([], s')
      else match span_until c s' with
           | Some (a, b) => Some (x :: a, b)
           | None => None
           end
  end.

(** After an opening bracket: the contents of the class and what follows
    the closing bracket, if there is one.  A [!] and then a closing
    bracket right at the start belong to the contents. *)
Definition find_close (r : pystr) : option (pystr * pystr) :=
  let (pre1, r1) :=
    match r with
    | c :: r' => if (c =? ch "!")%N then ([c], r') else ([], r)
    | [] => ([], r)
    end in
  let (pre2, r2) :=
    match r1 with
    | c :: r' => if (c =? ch "]")%N then ([c], r') else ([], r1)
    | [] => ([], r1)
    end in
  match span_until (ch "]") r2 with
  | Some (body, rest) => Some (pre1 ++ pre2 ++ body, rest)
  | None => None
  end.

Fixpoint translate (fuel : nat) (pat : pystr) : list ptoken :=
  match fuel with
  | O => []
  | S fuel' =>
      match pat with
      | [] => []
      | c :: rest =>
          if (c =? ch "*")%N then PStar :: translate fuel' rest
          else if (c =? ch "?")%N then PAny :: translate fuel' rest
          else if (c =? ch "[")%N then
            match find_close rest with
            | None => PChar c :: translate fuel' rest
            | Some (stuff, rest') =>
                bracket_class stuff :: translate fuel' rest'
            end
          else PChar c :: translate fuel' rest
      end
  end.

Definition in_range (c : N) (r : N * N) : bool :=
  ((fst r <=? c) && (c <=? snd r))%N.

Definition token_matches (t : ptoken) (c : N) : bool :=
  match t with
  | PStar => false
  | PAny => true
  | PChar x => (x =? c)%N
  | PClass negated singles ranges =>
      xorb negated
           (existsb (N.eqb c) singles || existsb (in_range c) ranges)
  | PNever => false
  end.

(** Whether the whole name matches: the compiled expression is anchored
    at both ends, and [.] matches every character. *)
Fixpoint match_tokens (ts : list ptoken) (name : pystr) : bool :=
  match ts with
  | [] => match name with [] => true | _ => false end
  | PStar :: ts' =>
      (fix star (n : pystr) : bool :=
         match_tokens ts' n
         || match n with [] => false | _ :: n' => star n' end) name
  | t :: ts' =>
      match name with
      | [] => false
      | c :: name' => token_matches t c && match_tokens ts' name'
      end
  end.

Definition fnmatchcase (name pat : pystr) : bool :=
  match_tokens (translate (List.length pat) pat) name.

(** [fnmatch.filter(names, pat)] on POSIX, where [normcase] is the
    identity. *)
Definition fnmatch_filter (names : list pystr) (pat : pystr) : list pystr :=
  filter (fun name => fnmatchcase name pat) names.

(* ================================================================== *)
(** * [os.path] and [glob] *)

Definition slash : N := ch "/".

Definition ends_with_slash (path : pystr) : bool :=
  match rev path with c :: _ => (c =? slash)%N | [] => false end.

(** [posixpath.join(a, b)] *)
Definition path_join (a b : pystr) : pystr :=
  if starts_with [slash] b then b
  else if match a with [] => true | _ => false end || ends_with_slash a
  then a ++ b
  else a ++ slash :: b.

Fixpoint rstrip_slash_rev (r : pystr) : pystr :=
  match r with
  | c :: r' => if (c =? slash)%N then rstrip_slash_rev r' else r
  | [] => []
  end.

(** On the reversed path: the reversed tail, up to the last slash, and
    the reversed head, from that slash on. *)
Fixpoint cut_at_slash (r : pystr) : pystr * pystr :=
  match r with
  | [] => ([], [])
  | c :: r' =>
      if (c =? slash)%N then ([], r)
      else let (t, h) := cut_at_slash r' in (c :: t, h)
  end.

(** [posixpath.split(p)]: the tail is what follows the last slash; the
    head loses its trailing slashes unless it consists of slashes
    only. *)
Definition path_split (p : pystr) : pystr * pystr :=
  let (tail_rev, head_rev) := cut_at_slash (rev p) in
  let tail := rev tail_rev in
  let head := rev head_rev in
  if forallb (N.eqb slash) head then (head, tail)
  else (rev (rstrip_slash_rev head_rev), tail).

(** [glob.has_magic] *)
Definition has_magic (s : pystr) : bool :=
  existsb (fun c => (c =? ch "*") || (c =? ch "?") || (c =? ch "["))%N s.

(** [glob._ishidden] *)
Definition ishidden (path : pystr) : bool :=
  match path with c :: _ => (c =? ch ".")%N | [] => false end.

(** [glob._join] *)
Definition glob_join (dirname basename : pystr) : pystr :=
  match dirname, basename with
  | [], _ => basename
  | _, [] => dirname
  | _, _ => path_join dirname basename
  end.

(** [glob._listdir]: the names in the directory, only the directories
    when [dironly]; nothing when the directory cannot be scanned. *)
Definition listdir (w : world) (dirname : pystr) (dironly : bool)
  : list pystr :=
  match scandir w (match dirname with [] => dot | _ => dirname end) with
  | Ok entries =>
      map fst (filter (fun e => negb dironly || snd e) entries)
  | Raise _ => []
  end.

(** [glob._glob1] with [include_hidden=False] *)
Definition glob1 (w : world) (dirname pattern : pystr) (dironly : bool)
  : list pystr :=
  let names := listdir w dirname dironly in
  let names :=
    if negb (ishidden pattern)
    then filter (fun x => negb (ishidden x)) names else names in
  fnmatch_filter names pattern.

(** [glob._glob0] *)
Definition glob0 (w : world) (dirname basename : pystr) : list pystr :=
  match basename with
  | [] => if isdir w dirname then [basename] else []
  | _ => if lexists w (glob_join dirname basename) then [basename] else []
  end.

(** [glob._iglob] with [recursive=False]; [root_dir] is the empty
    string.  The recursion is on the directory part of the pattern, which
    is shorter than the pattern. *)
Fixpoint iglob (fuel : nat) (w : world) (pathname : pystr) (dironly : bool)
  : list pystr :=
  match fuel with
  | O => []
  | S fuel' =>
      let (dirname, basename) := path_split pathname in
      if negb (has_magic pathname) then
        match basename with
        | [] => if isdir w dirname then [pathname] else []
        | _ => if lexists w pathname then [pathname] else []
        end
      else
        match dirname with
        | [] => glob1 w [] basename dironly
        | _ =>
            let dirs :=
              if negb (str_eqb dirname pathname) && has_magic dirname
              then iglob fuel' w dirname true
              else [dirname] in
            flat_map
              (fun dirname =>
                 map (fun name => path_join dirname name)
                     (if has_magic basename
                      then glob1 w dirname basename dironly
                      else glob0 w dirname basename))
              dirs
        end
  end.

(** [glob.glob(pathname)] *)
Definition glob (w : world) (pathname : pystr) : list pystr :=
  iglob (S (List.length pathname)) w pathname false.

(* ================================================================== *)
(** * [sorted] on strings *)

(** [a <= b] on [str]: code point by code point. *)
Fixpoint str_leb (a b : pystr) : bool :=
  match a, b with
  | [], _ => true
  | _ :: _, [] => false
  | x :: a', y :: b' =>
      if (x <? y)%N then true
      else if (y <? x)%N then false
      else str_leb a' b'
  end.

Fixpoint insert_sorted (x : pystr) (l : list pystr) : list pystr :=
  match l with
  | [] => [x]
  | y :: l' => if str_leb x y then x :: l else y :: insert_sorted x l'
  end.

(** [sorted(files)]: the result of a stable sort, which on strings is
    the one ordered arrangement of the list. *)
Definition sorted (l : list pystr) : list pystr :=
  fold_right insert_sorted [] l.

(* ================================================================== *)
(** * [find_reviews_files] *)

Definition find_reviews_files (w : world) (directory : pystr) : list pystr :=
  let pattern := path_join directory (lit "Reviews*.json") in
  let files := glob w pattern in
  sorted files.

(* ================================================================== *)
(** * Output *)

(** One constructor per [print] of the script, with the interpolated
    values as arguments. *)
Inductive line :=
| Warn_not_a_list (file_path : pystr)
| Warn_non_dictionary (file_path : pystr)
| Successfully_processed (file_path : pystr) (updated_count : nat)
| Error_parsing_JSON (file_path : pystr) (e : exn)
| Error_processing_file (file_path : pystr) (e : exn)
| Unexpected_error (file_path : pystr) (e : exn)
| No_Review_files_found (directory : pystr)
| Found_files (n : nat)
| Item (file_path : pystr)
| Blank
| Processing_complete (success_count total : nat).

(* ================================================================== *)
(** * The program's monad: the world, the output, a result *)

Definition M (A : Type) := world -> world * list line * result A.

Definition ret {A} (a : A) : M A := fun w => (w, [], Ok a).
Definition raise {A} (e : exn) : M A := fun w => (w, [], Raise e).
Definition lift {A} (r : result A) : M A := fun w => (w, [], r).
Definition print (l : line) : M unit := fun w => (w, [l], Ok tt).
Definition prints (ls : list line) : M unit := fun w => (w, ls, Ok tt).

Definition bind {A B} (m : M A) (k : A -> M B) : M B :=
  fun w =>
    match m w with
    | (w1, out1, Ok a) =>
        let '(w2, out2, r) := k a w1 in (w2, out1 ++ out2, r)
    | (w1, out1, Raise e) => (w1, out1, Raise e)
    end.

(** [try: m except ...: handler] *)
Definition try_except {A} (m : M A) (handler : exn -> M A) : M A :=
  fun w =>
    match m w with
    | (w1, out1, Ok a) => (w1, out1, Ok a)
    | (w1, out1, Raise e) =>
        let '(w2, out2, r) := handler e w1 in (w2, out1 ++ out2, r)
    end.

Notation "x <<- c ;; k" := (bind c (fun x => k))
  (at level 61, c at next level, right associativity).
Notation "c ;;; k" := (bind c (fun _ => k))
  (at level 61, right associativity).

(* ================================================================== *)
(** * Reading and writing a file *)

(** [open(file_path, 'r', encoding='utf-8')] then [f.read()] *)
Definition read_text (file_path : pystr) : M pystr :=
  fun w =>
    (w, [],
     n <- stat w file_path ;;
     match n with
     | Dir _ => Raise (IsADirectoryError file_path)
     | File readable _ content =>
         if readable then
           s <- utf8_decode content ;; Ok (universal_newlines s)
         else Raise (PermissionError file_path)
     end).

(** [open(file_path, 'w', encoding='utf-8')]: the file is created or
    truncated at once.  Returns the resolved path as the handle. *)
Definition open_write (file_path : pystr) : M (list pystr) :=
  fun w =>
    match resolve w file_path with
    | Raise e => (w, [], Raise e)
    | Ok p =>
        match get_node (root w) p with
        | Some (Dir _) => (w, [], Raise (IsADirectoryError file_path))
        | Some (File r wr _) =>
            if wr
            then (World (set_node (root w) p (File r wr [])) (cwd w), [], Ok p)
            else (w, [], Raise (PermissionError file_path))
        | None =>
            (World (set_node (root w) p (File true true [])) (cwd w), [], Ok p)
        end
    end.

(** [f.write(chunk)]: the chunk is encoded as a whole, then appended.
    (Buffered bytes reach the file when the [with] block closes it,
    also when an exception leaves the block.) *)
Definition write (f : list pystr) (chunk : pystr) : M unit :=
  fun w =>
    match utf8_encode chunk with
    | Raise e => (w, [], Raise e)
    | Ok bs =>
        match get_node (root w) f with
        | Some (File r wr content) =>
            (World (set_node (root w) f (File r wr (content ++ bs))) (cwd w),
             [], Ok tt)
        | _ => (w, [], Ok tt)
        end
    end.

(** [for chunk in iterable: fp.write(chunk)] *)
Fixpoint write_chunks (f : list pystr) (chunks : list pystr) : M unit :=
  match chunks with
  | [] => ret tt
  | chunk :: rest => write f chunk ;;; write_chunks f rest
  end.

(* ================================================================== *)
(** * JSON: the lexical level *)

(** [WHITESPACE]: space, tab, line feed, carriage return *)
Definition json_ws (c : N) : bool :=
  ((c =? 32) || (c =? 9) || (c =? 10) || (c =? 13))%N.

Fixpoint skip_ws (s : pystr) : pystr :=
  match s with
  | c :: s' => if json_ws c then skip_ws s' else s
  | [] => []
  end.

Definition hex_digit (c : N) : option N :=
  if ((48 <=? c) && (c <=? 57))%N then Some (c - 48)%N
  else if ((97 <=? c) && (c <=? 102))%N then Some (c - 87)%N
  else if ((65 <=? c) && (c <=? 70))%N then Some (c - 55)%N
  else None.

Definition hex4 (a b c d : N) : option N :=
  match hex_digit a, hex_digit b, hex_digit c, hex_digit d with
  | Some a, Some b, Some c, Some d => Some (((a * 16 + b) * 16 + c) * 16 + d)%N
  | _, _, _, _ => None
  end.

(** [BACKSLASH]: the one-letter escapes *)
Definition unescape (esc : N) : option N :=
  if (esc =? quote)%N then Some quote
  else if (esc =? backslash)%N then Some backslash
  else if (esc =? ch "/")%N then Some (ch "/")
  else if (esc =? ch "b")%N then Some 8%N
  else if (esc =? ch "f")%N then Some 12%N
  else if (esc =? ch "n")%N then Some 10%N
  else if (esc =? ch "r")%N then Some 13%N
  else if (esc =? ch "t")%N then Some 9%N
  else None.

Definition is_high_surrogate (c : N) : bool := ((55296 <=? c) && (c <=? 56319))%N.
Definition is_low_surrogate (c : N) : bool := ((56320 <=? c) && (c <=? 57343))%N.
Definition join_surrogates (hi lo : N) : N :=
  (65536 + N.lor (N.shiftl (hi - 55296) 10) (lo - 56320))%N.

(** [scanstring(s, end, strict=True)]: [s] starts after the opening
    quote, [acc] holds the characters read so far, reversed.  A [\uXXXX]
    escape may denote a lone surrogate; it is kept as it is. *)
Fixpoint scanstring (s : pystr) (acc : pystr) {struct s}
  : result (pystr * pystr) :=
  match s with
  | [] => Raise JSONDecodeError
  | c :: s1 =>
      if (c =? quote)%N then Ok (rev acc, s1)
      else if (c =? backslash)%N then
        match s1 with
        | [] => Raise JSONDecodeError
        | esc :: s2 =>
            if (esc =? ch "u")%N then
              match s2 with
              | h1 :: h2 :: h3 :: h4 :: s3 =>
                  match hex4 h1 h2 h3 h4 with
                  | None => Raise JSONDecodeError
                  | Some uni =>
                      match s3 with
                      | b :: u :: s4 =>
                          if is_high_surrogate uni && (b =? backslash)%N
                             && (u =? ch "u")%N then
                            match s4 with
                            | l1 :: l2 :: l3 :: l4 :: s5 =>
                                match hex4 l1 l2 l3 l4 with
                                | None => Raise JSONDecodeError
                                | Some uni2 =>
                                    if is_low_surrogate uni2
                                    then scanstring s5
                                           (join_surrogates uni uni2 :: acc)
                                    else scanstring s3 (uni :: acc)
                                end
                            | _ => Raise JSONDecodeError
                            end
                          else scanstring s3 (uni :: acc)
                      | _ => scanstring s3 (uni :: acc)
                      end
                  end
              | _ => Raise JSONDecodeError
              end
            else
              match unescape esc with
              | Some c' => scanstring s2 (c' :: acc)
              | None => Raise JSONDecodeError
              end
        end
      else if (c <? 32)%N then Raise JSONDecodeError
      else scanstring s1 (c :: acc)
  end.

Definition is_digit (c : N) : bool := ((48 <=? c) && (c <=? 57))%N.

Fixpoint span_digits (s : pystr) : pystr * pystr :=
  match s with
  | c :: s' =>
      if is_digit c then let (d, r) := span_digits s' in (c :: d, r)
      else ([], s)
  | [] => ([], [])
  end.

(** [NUMBER_RE]: an optional minus sign and either a single 0 or a
    nonzero digit followed by digits; then optionally a dot and at least
    one digit; then optionally e or E, an optional sign and at least one
    digit.  Returns the three groups and the rest of the input. *)
Definition match_number (s : pystr)
  : option (pystr * pystr * pystr * pystr) :=
  let (sign, s0) :=
    match s with
    | c :: s' => if (c =? ch "-")%N then ([c], s') else ([], s)
    | [] => ([], s)
    end in
  let integer :=
    match s0 with
    | c :: s' =>
        if (c =? ch "0")%N then Some ([c], s')
        else if is_digit c then
          let (d, r) := span_digits s' in Some (c :: d, r)
        else None
    | [] => None
    end in
  match integer with
  | None => None
  | Some (digits, s1) =>
      let (frac, s2) :=
        match s1 with
        | dot :: s' =>
            match span_digits s' with
            | (d1 :: d, r) =>
                if (dot =? ch ".")%N then (dot :: d1 :: d, r) else ([], s1)
            | ([], _) => ([], s1)
            end
        | [] => ([], s1)
        end in
      let (exp, s3) :=
        match s2 with
        | e :: s' =>
            if ((e =? ch "e") || (e =? ch "E"))%N then
              let (esign, s'') :=
                match s' with
                | c :: t =>
                    if ((c =? ch "-") || (c =? ch "+"))%N
                    then ([c], t) else ([], s')
                | [] => ([], s')
                end in
              match span_digits s'' with
              | (d1 :: d, r) => (e :: esign ++ d1 :: d, r)
              | ([], _) => ([], s2)
              end
            else ([], s2)
        | [] => ([], s2)
        end in
      Some (sign ++ digits, frac, exp, s3)
  end.

(** [int(integer)] for a string matched by the first group; the
    interpreter refuses more than 4300 digits. *)
Definition int_max_str_digits : nat := 4300.

Definition digits_value (ds : pystr) : Z :=
  fold_left (fun acc d => acc * 10 + Z.of_N (d - 48)) ds 0.

Definition parse_int (integer : pystr) : result Z :=
  let (neg, ds) :=
    match integer with
    | c :: ds => if (c =? ch "-")%N then (true, ds) else (false, integer)
    | [] => (false, [])
    end in
  if Nat.ltb int_max_str_digits (List.length ds) then Raise IntDigitsError
  else Ok (if neg then - digits_value ds else digits_value ds).

Definition hex_char (d : N) : N := (if d <? 10 then 48 + d else 87 + d)%N.

(** [encode_basestring]: quotes, backslashes and control characters are
    escaped, everything else is written as it is
    ([ensure_ascii=False]). *)
Definition escape_char (c : N) : pystr :=
  if (c =? quote)%N then [backslash; quote]
  else if (c =? backslash)%N then [backslash; backslash]
  else if (c =? 10)%N then [backslash; ch "n"]
  else if (c =? 13)%N then [backslash; ch "r"]
  else if (c =? 9)%N then [backslash; ch "t"]
  else if (c =? 8)%N then [backslash; ch "b"]
  else if (c =? 12)%N then [backslash; ch "f"]
  else if (c <? 32)%N then
    [backslash; ch "u"; ch "0"; ch "0"; hex_char (c / 16); hex_char (c mod 16)]
  else [c].

Definition encode_basestring (s : pystr) : pystr :=
  quote :: flat_map escape_char s ++ [quote].

(** [int.__repr__] *)
Definition int_repr (n : Z) : pystr :=
  lit (DecimalString.NilZero.string_of_int (Z.to_int n)).

(* ================================================================== *)
(** * Python values *)

(** What the program needs of [float]: how a JSON number literal is read,
    how a float is printed ([float.__repr__]), and its truth value. *)
Class PyFloat := {
  float : Type;
  float_of_literal : pystr -> float;
  float_nan : float;
  float_inf : bool -> float;     (* [true] is [-Infinity] *)
  float_repr : float -> pystr;   (* what [json] writes for it *)
  float_nonzero : float -> bool
}.

(** An instance to run the examples with, none of which holds a float: a
    float is kept as the literal it was read from. *)
Definition literal_nonzero (s : pystr) : bool :=
  existsb (fun c => (49 <=? c) && (c <=? 57))%N
          ((fix mantissa (s : pystr) : pystr :=
              match s with
              | [] => []
              | c :: s' =>
                  if ((c =? 101) || (c =? 69))%N then [] else c :: mantissa s'
              end) s)
  || existsb (fun c => (c =? 78) || (c =? 73))%N s.

Definition literal_floats : PyFloat :=
  {| float := pystr;
     float_of_literal := fun s => s;
     float_nan := lit "NaN";
     float_inf := fun neg => if neg then lit "-Infinity" else lit "Infinity";
     float_repr := fun s => s;
     float_nonzero := literal_nonzero |}.

Section Program.
Context {PF : PyFloat}.

(** The objects [json.load] builds. *)
Inductive pyval :=
| PNone
| PBool (b : bool)
| PInt (n : Z)
| PFloat (f : float)
| PStr (s : pystr)
| PList (l : list pyval)
| PDict (d : list (pystr * pyval)).

Definition pydict := list (pystr * pyval).

Definition type_of (v : pyval) : pytype :=
  match v with
  | PNone => TNoneType | PBool _ => TBool | PInt _ => TInt
  | PFloat _ => TFloat | PStr _ => TStr | PList _ => TList
  | PDict _ => TDict
  end.

Definition is_dict (v : pyval) : bool :=
  match v with PDict _ => true | _ => false end.

Definition is_str (v : pyval) : bool :=
  match v with PStr _ => true | _ => false end.

(** [bool(v)] *)
Definition truthy (v : pyval) : bool :=
  match v with
  | PNone => false
  | PBool b => b
  | PInt n => negb (n =? 0)
  | PFloat f => float_nonzero f
  | PStr s => match s with [] => false | _ => true end
  | PList l => match l with [] => false | _ => true end
  | PDict d => match d with [] => false | _ => true end
  end.

(** [d.get(k)], [d[k] = v] *)
Fixpoint dict_get (d : pydict) (k : pystr) : option pyval :=
  match d with
  | [] => None
  | (k', v) :: d' => if str_eqb k' k then Some v else dict_get d' k
  end.

Definition dict_get_default (d : pydict) (k : pystr) : pyval :=
  match dict_get d k with Some v => v | None => PNone end.

Fixpoint dict_set (d : pydict) (k : pystr) (v : pyval) : pydict :=
  match d with
  | [] => [(k, v)]
  | (k', v') :: d' =>
      if str_eqb k' k then (k', v) :: d' else (k', v') :: dict_set d' k v
  end.

(* ================================================================== *)
(** * [calculate_word_count] *)

(** [text.split()]: only [str] has the method. *)
Definition method_split (text : pyval) : result (list pystr) :=
  match text with
  | PStr s => Ok (str_split s)
  | _ => Raise (AttributeError (type_of text) "split")
  end.

(** [[word for word in words if word.strip()]] *)
Definition nonblank (word : pystr) : bool := truthy (PStr (strip word)).

Definition calculate_word_count (text : pyval) : result Z :=
  if negb (truthy text) then Ok 0
  else
    all_words <- method_split text ;;
    let words := filter nonblank all_words in
    Ok (Z.of_nat (List.length words)).

(* ================================================================== *)
(** * The augmentation loop (lines 55-67) *)

Definition wordCount : pystr := lit "wordCount".
Definition text_key : pystr := lit "text".

(** The body of the loop on a dictionary: lines 62-66. *)
Definition augment_review (review : pydict) : result pydict :=
  let text := dict_get_default review text_key in
  word_count <- calculate_word_count text ;;
  Ok (dict_set review wordCount (PInt word_count)).

(** The loop.  It mutates the reviews in place, so the state of the list
    is returned even when an exception leaves the loop: the reviews before
    the offending one are already updated.  Result: the list, what was
    printed, and [updated_count] or the exception. *)
Fixpoint augment_loop (file_path : pystr) (reviews : list pyval)
    (updated_count : nat) : list pyval * list line * result nat :=
  match reviews with
  | [] => ([], [], Ok updated_count)
  | review :: rest =>
      match review with
      | PDict d =>
          match augment_review d with
          | Raise e => (reviews, [], Raise e)
          | Ok d' =>
              let '(rest', out, r) :=
                augment_loop file_path rest (S updated_count) in
              (PDict d' :: rest', out, r)
          end
      | _ =>
          let '(rest', out, r) := augment_loop file_path rest updated_count in
          (review :: rest', Warn_non_dictionary file_path :: out, r)
      end
  end.

Definition augment_reviews (file_path : pystr) (reviews : list pyval) :=
  augment_loop file_path reviews 0.

(* ================================================================== *)
(** * [json.load]: the decoder *)

(** [scan_once], [JSONArray] and [JSONObject].  The interpreter's
    recursion is bounded by [fuel]; a loop iteration of [JSONArray] or
    [JSONObject] also takes one unit.  [parse_items] and [parse_members]
    start at the first element, after the opening bracket and white
    space. *)
Fixpoint scan_once (fuel : nat) (s : pystr) {struct fuel}
  : result (pyval * pystr) :=
  match fuel with
  | O => Raise RecursionError
  | S fuel' =>
      match s with
      | [] => Raise JSONDecodeError
      | nextchar :: s1 =>
          if (nextchar =? quote)%N then
            '(str, rest) <- scanstring s1 [] ;; Ok (PStr str, rest)
          else if (nextchar =? ch "{")%N then
            match skip_ws s1 with
            | c :: s2 =>
                if (c =? ch "}")%N then Ok (PDict [], s2)
                else parse_members fuel' [] (c :: s2)
            | [] => Raise JSONDecodeError
            end
          else if (nextchar =? ch "[")%N then
            match skip_ws s1 with
            | c :: s2 =>
                if (c =? ch "]")%N then Ok (PList [], s2)
                else parse_items fuel' [] (c :: s2)
            | [] => Raise JSONDecodeError
            end
          else if starts_with (lit "null") s then Ok (PNone, skipn 4 s)
          else if starts_with (lit "true") s then Ok (PBool true, skipn 4 s)
          else if starts_with (lit "false") s then Ok (PBool false, skipn 5 s)
          else
            match match_number s with
            | Some (integer, frac, exp, rest) =>
                match frac, exp with
                | [], [] => n <- parse_int integer ;; Ok (PInt n, rest)
                | _, _ =>
                    Ok (PFloat (float_of_literal (integer ++ frac ++ exp)), rest)
                end
            | None =>
                if starts_with (lit "NaN") s then
                  Ok (PFloat float_nan, skipn 3 s)
                else if starts_with (lit "Infinity") s then
                  Ok (PFloat (float_inf false), skipn 8 s)
                else if starts_with (lit "-Infinity") s then
                  Ok (PFloat (float_inf true), skipn 9 s)
                else Raise JSONDecodeError
            end
      end
  end

with parse_items (fuel : nat) (values : list pyval) (s : pystr) {struct fuel}
  : result (pyval * pystr) :=
  match fuel with
  | O => Raise RecursionError
  | S fuel' =>
      '(value, rest) <- scan_once fuel' s ;;
      match skip_ws rest with
      | c :: r =>
          if (c =? ch "]")%N then Ok (PList (rev (value :: values)), r)
          else if (c =? ch ",")%N then
            parse_items fuel' (value :: values) (skip_ws r)
          else Raise JSONDecodeError
      | [] => Raise JSONDecodeError
      end
  end

with parse_members (fuel : nat) (pairs : pydict) (s : pystr) {struct fuel}
  : result (pyval * pystr) :=
  match fuel with
  | O => Raise RecursionError
  | S fuel' =>
      match s with
      | q :: s1 =>
          if (q =? quote)%N then
            '(key, rest) <- scanstring s1 [] ;;
            match skip_ws rest with
            | colon :: r =>
                if (colon =? ch ":")%N then
                  '(value, rest2) <- scan_once fuel' (skip_ws r) ;;
                  let pairs' := dict_set pairs key value in
                  match skip_ws rest2 with
                  | c :: r2 =>
                      if (c =? ch "}")%N then Ok (PDict pairs', r2)
                      else if (c =? ch ",")%N then
                        parse_members fuel' pairs' (skip_ws r2)
                      else Raise JSONDecodeError
                  | [] => Raise JSONDecodeError
                  end
                else Raise JSONDecodeError
            | [] => Raise JSONDecodeError
            end
          else Raise JSONDecodeError
      | [] => Raise JSONDecodeError
      end
  end.

(** [json.loads(s)] for a [str]: no byte order mark, one value, nothing
    but white space around it.  The fuel covers any nesting the
    document can have. *)
Definition json_loads (s : pystr) : result pyval :=
  if starts_with [65279%N] s then Raise JSONDecodeError
  else
    '(obj, rest) <- scan_once (2 * List.length s + 2) (skip_ws s) ;;
    match skip_ws rest with
    | [] => Ok obj
    | _ :: _ => Raise JSONDecodeError
    end.

(* ================================================================== *)
(** * [json.dump]: the encoder *)

(** The values [_iterencode_list] and [_iterencode_dict] write in one
    piece. *)
Definition scalar_repr (value : pyval) : option pystr :=
  match value with
  | PStr s => Some (encode_basestring s)
  | PNone => Some (lit "null")
  | PBool true => Some (lit "true")
  | PBool false => Some (lit "false")
  | PInt n => Some (int_repr n)
  | PFloat f => Some (float_repr f)
  | PList _ | PDict _ => None
  end.

Definition indent_str (level : nat) : pystr := repeat 32%N (2 * level).
Definition newline_indent (level : nat) : pystr := 10%N :: indent_str level.

(** [_iterencode] with [indent=2], hence [item_separator = ','] and
    [key_separator = ': ']: the chunks the generator yields, in order. *)
Fixpoint iterencode (o : pyval) (level : nat) {struct o} : list pystr :=
  match o with
  | PList [] => [lit "[]"]
  | PList lst =>
      (fix items (first : bool) (l : list pyval) : list pystr :=
         match l with
         | [] => []
         | value :: l' =>
             let buf :=
               if first then ch "[" :: newline_indent (S level)
               else ch "," :: newline_indent (S level) in
             match scalar_repr value with
             | Some text => [buf ++ text]
             | None => buf :: iterencode value (S level)
             end ++ items false l'
         end) true lst
      ++ [newline_indent level; lit "]"]
  | PDict [] => [lit "{}"]
  | PDict dct =>
      lit "{" :: newline_indent (S level) ::
      (fix members (first : bool) (d : pydict) : list pystr :=
         match d with
         | [] => []
         | (key, value) :: d' =>
             (if first then [] else [ch "," :: newline_indent (S level)])
             ++ [encode_basestring key; lit ": "]
             ++ match scalar_repr value with
                | Some text => [text]
                | None => iterencode value (S level)
                end
             ++ members false d'
         end) true dct
      ++ [newline_indent level; lit "}"]
  | _ => match scalar_repr o with Some text => [text] | None => [] end
  end.

(* ================================================================== *)
(** * [process_reviews_file] *)

(** [json.load(f)] on the file just opened *)
Definition json_load (file_path : pystr) : M pyval :=
  text <<- read_text file_path ;; lift (json_loads text).

(** [with open(file_path, 'w', encoding='utf-8') as f:
       json.dump(data, f, indent=2, ensure_ascii=False)] *)
Definition json_dump (data : pyval) (file_path : pystr) : M unit :=
  f <<- open_write file_path ;; write_chunks f (iterencode data 0).

(** The body of the [try] statement, lines 45-74. *)
Definition process_reviews_body (file_path : pystr) : M bool :=
  reviews_data <<- json_load file_path ;;
  match reviews_data with
  | PList reviews =>
      let '(reviews', warnings, outcome) :=
        augment_reviews file_path reviews in
      prints warnings ;;;
      updated_count <<- lift outcome ;;
      json_dump (PList reviews') file_path ;;;
      print (Successfully_processed file_path updated_count) ;;;
      ret true
  | _ =>
      print (Warn_not_a_list file_path) ;;; ret false
  end.

(** The three [except] clauses, lines 76-84, tried in order. *)
Definition process_reviews_handlers (file_path : pystr) (e : exn) : M bool :=
  if isinstance_exn e Cls_JSONDecodeError then
    print (Error_parsing_JSON file_path e) ;;; ret false
  else if isinstance_exn e Cls_IOError then
    print (Error_processing_file file_path e) ;;; ret false
  else if isinstance_exn e Cls_Exception then
    print (Unexpected_error file_path e) ;;; ret false
  else raise e.

Definition process_reviews_file (file_path : pystr) : M bool :=
  try_except (process_reviews_body file_path)
             (process_reviews_handlers file_path).

(* ================================================================== *)
(** * [main] *)

(** The second loop of [main], lines 122-125. *)
Fixpoint process_all (review_files : list pystr) (success_count : nat)
  : M nat :=
  match review_files with
  | [] => ret success_count
  | file_path :: rest =>
      ok <<- process_reviews_file file_path ;;
      process_all rest (if ok then S success_count else success_count)
  end.

(** Lines 105-107: the directory is [sys.argv[1]] when there is one. *)
Definition argv_directory (argv : list pystr) : pystr :=
  match argv with
  | _ :: arg :: _ => arg
  | _ => lit "data"
  end.

(** [main()] with [sys.argv] given. *)
Definition main (argv : list pystr) : M unit :=
  let directory := argv_directory argv in
  fun w =>
    let review_files := find_reviews_files w directory in
    match review_files with
    | [] => print (No_Review_files_found directory) w
    | _ =>
        (print (Found_files (List.length review_files)) ;;;
         prints (map Item review_files) ;;;
         print Blank ;;;
         success_count <<- process_all review_files 0 ;;
         print (Processing_complete success_count (List.length review_files)))
          w
    end.

(** Running the script: the exit status is 0 when [main] returns and 1
    when an exception reaches the top level. *)
Definition run_script (argv : list pystr) (w : world)
  : world * list line * Z :=
  match main argv w with
  | (w', out, Ok _) => (w', out, 0)
  | (w', out, Raise _) => (w', out, 1)
  end.

End Program.

(* ================================================================== *)
(** * The specification's word count *)

(** The text is cut at every white space character, the empty pieces
    are discarded, and the remaining ones are counted. *)
Fixpoint cut_at_spaces (cur : pystr) (s : pystr) : list pystr :=
  match s with
  | [] => [rev cur]
  | c :: s' =>
      if isspace c then rev cur :: cut_at_spaces [] s'
      else cut_at_spaces (c :: cur) s'
  end.

Definition nonempty (w : pystr) : bool :=
  match w with [] => false | _ => true end.

Definition spec_word_count (s : pystr) : Z :=
  Z.of_nat (List.length (filter nonempty (cut_at_spaces [] s))).

(** ** Words *)

(** The word being read, if one was begun. *)
Definition as_word (cur : pystr) : option pystr :=
  match cur with [] => None | _ => Some cur end.

(** A word: not empty, no white space in it. *)
Definition is_word (w : pystr) : Prop :=
  w <> [] /\ forallb (fun c => negb (isspace c)) w = true.

(** ** Nodes *)

(** Whether there is a node, and whether it is a directory. *)
Definition node_kind (n : option node) : option bool :=
  match n with
  | Some (Dir _) => Some true
  | Some (File _ _ _) => Some false
  | None => None
  end.

Definition same_kinds (r r' : node) : Prop :=
  forall q, node_kind (get_node r' q) = node_kind (get_node r q).

(** The tree without the contents of its files: the names in their
    order, the kinds and the permissions. *)
Fixpoint shape (n : node) : node :=
  match n with
  | File r wr _ => File r wr []
  | Dir entries => Dir (map (fun e => (fst e, shape (snd e))) entries)
  end.

(** Every file of [r] that is not at a path of [touched] is in [r'] as
    it was. *)
Definition files_kept (touched : list pystr -> Prop) (r r' : node) : Prop :=
  forall q a b c,
    ~ touched q ->
    get_node r q = Some (File a b c) -> get_node r' q = Some (File a b c).

(** ** Output *)



(** ** Paths *)

Definition no_slash (s : pystr) : Prop :=
  forallb (fun c => negb (c =? slash)%N) s = true.

(** ** Names and order, for [find_reviews_files] *)

(** Some tail of [s] is [suffix]. *)
Fixpoint ends_with (suffix s : pystr) : bool :=
  str_eqb s suffix
  || match s with [] => false | _ :: s' => ends_with suffix s' end.

(** The name starts with [Reviews] and ends with [.json]. *)
Definition is_reviews_name (name : pystr) : bool :=
  starts_with (lit "Reviews") name && ends_with (lit ".json") name.

Definition str_le (a b : pystr) : Prop := str_leb a b = true.

(** The text ["a   b\tc\n d"] of the specification's example. *)
Definition irregular_text : pystr :=
  [97; 32; 32; 32; 98; 9; 99; 10; 32; 100]%N.

(** ** Reading back what was written *)

(** The digits of a decimal number, most significant first. *)
Definition digits_of (d : Decimal.uint) : pystr :=
  lit (NilEmpty.string_of_uint d).

(** A rest of the input that does not go on like a number. *)
Definition number_end (rest : pystr) : bool :=
  match rest with
  | [] => true
  | c :: _ =>
      negb (is_digit c || (c =? ch ".") || (c =? ch "e") || (c =? ch "E"))%N
  end.

(** The digits that count against the interpreter's limit: the decimal
    form of the integer without its sign. *)
Definition int_digits (n : Z) : pystr :=
  match int_repr n with
  | c :: t => if (c =? ch "-")%N then t else c :: t
  | [] => []
  end.

(** The characters a value written by the encoder can start with. *)
Definition value_start (c : N) : bool :=
  ((c =? quote) || (c =? ch "{") || (c =? ch "[") || (c =? ch "n")
   || (c =? ch "t") || (c =? ch "f") || (c =? ch "-") || is_digit c)%N.

(** The decoder gives this result, unless it runs out of fuel. *)
Definition reads {A} (r : result A) (a : A) : Prop :=
  r = Ok a \/ r = Raise RecursionError.

(** No carriage return in the text. *)
Definition no_cr (s : pystr) : bool := forallb (fun c => negb (c =? 13)%N) s.

Section Statements.
Context {PF : PyFloat}.


Definition has_wordCount (v : pyval) : Prop :=
  forall d, v = PDict d ->
  exists n, 0 <= n /\ dict_get d wordCount = Some (PInt n).

(** A JSON text written with apostrophes for its double quotes. *)
Definition json_text (s : string) : pystr :=
  map (fun c => if (c =? 39)%N then quote else c) (lit s).

(** The array of the specification's example of a non-object element. *)
Definition mixed_reviews : list pyval :=
  [PDict [(text_key, PStr (lit "a b"))];
   PStr (lit "not-an-object");
   PDict [(text_key, PStr (lit "c"))]].

(** The dictionaries of a list: what the tally counts. *)
Definition count_dicts (reviews : list pyval) : nat :=
  List.length (filter is_dict reviews).

Definition mixed_reviews_after : list pyval :=
  [PDict [(text_key, PStr (lit "a b")); (wordCount, PInt 2)];
   PStr (lit "not-an-object");
   PDict [(text_key, PStr (lit "c")); (wordCount, PInt 1)]].

(** The text [json.dump] writes: the chunks of [iterencode], joined. *)
Definition encode (v : pyval) (level : nat) : pystr :=
  List.concat (iterencode v level).

(** The items of a list as they are written, each after its bracket or
    comma and the indentation. *)
Fixpoint encode_items (level : nat) (first : bool) (l : list pyval) : pystr :=
  match l with
  | [] => []
  | value :: l' =>
      (if first then ch "[" else ch ",") :: newline_indent (S level)
      ++ encode value (S level) ++ encode_items level false l'
  end.

(** The members of a dictionary as they are written. *)
Fixpoint encode_members (level : nat) (first : bool) (d : pydict) : pystr :=
  match d with
  | [] => []
  | (key, value) :: d' =>
      (if first then [] else ch "," :: newline_indent (S level))
      ++ encode_basestring key ++ lit ": "
      ++ encode value (S level) ++ encode_members level false d'
  end.

(** No key twice. *)
Fixpoint unique (keys : list pystr) : bool :=
  match keys with
  | [] => true
  | k :: rest => negb (existsb (str_eqb k) rest) && unique rest
  end.

(** The values whose text the model reads back as they were: no float,
    the representation of which is left abstract; integers within the
    interpreter's limit of digits, beyond which [int()] refuses the
    literal; dictionaries without a repeated key. *)
Fixpoint plain (v : pyval) : bool :=
  match v with
  | PNone | PBool _ | PStr _ => true
  | PInt n => (List.length (int_digits n) <=? int_max_str_digits)%nat
  | PFloat _ => false
  | PList l => forallb plain l
  | PDict d => unique (map fst d) && forallb (fun kv => plain (snd kv)) d
  end.

(** Induction on values, with the induction hypothesis for the elements
    of a list and for the values of a dictionary. *)
Section Induction.
Variable P : pyval -> Prop.
Hypothesis HNone : P PNone.
Hypothesis HBool : forall b, P (PBool b).
Hypothesis HInt : forall n, P (PInt n).
Hypothesis HFloat : forall f, P (PFloat f).
Hypothesis HStr : forall s, P (PStr s).
Hypothesis HList : forall l, Forall P l -> P (PList l).
Hypothesis HDict : forall d, Forall (fun kv => P (snd kv)) d -> P (PDict d).

Fixpoint pyval_nested_ind (v : pyval) : P v :=
  match v with
  | PNone => HNone
  | PBool b => HBool b
  | PInt n => HInt n
  | PFloat f => HFloat f
  | PStr s => HStr s
  | PList l =>
      @HList l ((fix go (l : list pyval) : Forall P l :=
                match l with
                | [] => Forall_nil _
                | x :: r => @Forall_cons _ P x r (pyval_nested_ind x) (go r)
                end) l)
  | PDict d =>
      @HDict d ((fix go (d : list (pystr * pyval))
                : Forall (fun kv => P (snd kv)) d :=
                match d with
                | [] => Forall_nil _
                | kv :: r =>
                    @Forall_cons _ (fun kv => P (snd kv)) kv r
                      (pyval_nested_ind (snd kv)) (go r)
                end) d)
  end.
End Induction.

Definition reads_back (v : pyval) : Prop :=
  plain v = true ->
  forall fuel level rest,
    number_end rest = true ->
    reads (scan_once fuel (encode v level ++ rest)) (v, rest).



End Statements.

(** The bytes of a file given as text, with apostrophes for double
    quotes. *)
Definition file_bytes (s : string) : list byte := map byte_of (json_text s).

Definition plain_file (s : string) : node := File true true (file_bytes s).

(** A file system to run the program on; the working directory is the
    root.  [data] holds the two files of the specification's scenario, a
    file whose top level is an object, a file with an empty array, a
    file with a lone surrogate in a string, a file that may not be
    written, a lower-case name, an array of one string with a lone
    surrogate, and a directory whose name matches the pattern.  Next to it are a directory with a bracket in its name and
    a directory the bracket expression stands for. *)
Definition sample_world : world :=
  World
    (Dir
       [(lit "data",
         Dir [(lit "Reviews2.json", plain_file "[{'text':'bad'}]");
              (lit "Reviews1.json",
               plain_file "[{'text':'good product'},{'text':''}]");
              (lit "Reviews3.json", plain_file "{'text':'a b'}");
              (lit "Reviews4.json", plain_file "[ ]");
              (lit "Reviews5.json",
               plain_file "[{'text':'a b'}, '\ud800', {'text':'c'}]");
              (lit "Reviews6.json",
               File true false (file_bytes "[{'text':'x'}]"));
              (lit "reviews7.json", plain_file "[]");
              (lit "Reviews8.json", plain_file "['\ud800']");
              (lit "Reviews_old.json", Dir [])]);
        (lit "data[1]", Dir [(lit "Reviews1.json", plain_file "[]")]);
        (lit "data1", Dir [(lit "Reviews9.json", plain_file "[]")]);
        (lit "empty", Dir [])])
    [].

(** The directory of the specification's scenario, and nothing else. *)
Definition scenario_world : world :=
  World
    (Dir
       [(lit "reviews",
         Dir [(lit "Reviews2.json", plain_file "[{'text':'bad'}]");
              (lit "Reviews1.json",
               plain_file "[{'text':'good product'},{'text':''}]")])])
    [].

(** Files that cannot be loaded, and an array of mixed elements: a file
    that may not be read, bytes that are not UTF-8 (Latin-1 for an
    accented letter), an array that is not closed, and an integer of
    4301 digits. *)
Definition faulty_world : world :=
  World
    (Dir
       [(lit "data",
         Dir [(lit "Reviews1.json",
               File false true (file_bytes "[{'text':'x'}]"));
              (lit "Reviews2.json",
               File true true [x5b; x22; xe9; x22; x5d]);
              (lit "Reviews3.json", plain_file "[{'text': 'a'}");
              (lit "Reviews4.json",
               File true true
                 (map byte_of (ch "[" :: repeat 49%N 4301 ++ [ch "]"])));
              (lit "Reviews5.json",
               plain_file "[{'text':'a b'}, 'not-an-object', 7, {'text':'c'}]");
              (lit "Reviews6.json", Dir []);
              (lit "notes.txt", plain_file "keep me")])])
    [].

(* ================================================================== *)
(** * Properties *)

Section Properties.
Context {PF : PyFloat}.

(** ** Strings and dictionaries *)

Lemma str_eqb_eq a b : str_eqb a b = true <-> a = b.
Proof. unfold str_eqb; destruct list_eq_dec; split; congruence. Qed.

Lemma str_eqb_refl a : str_eqb a a = true.
Proof. now apply str_eqb_eq. Qed.

Lemma str_eqb_neq a b : str_eqb a b = false <-> a <> b.
Proof. unfold str_eqb; destruct list_eq_dec; split; congruence. Qed.

Lemma dict_get_set_same (d : pydict) k v :
  dict_get (dict_set d k v) k = Some v.
Proof.
  induction d as [|[k' v'] d IH]; simpl.
  - now rewrite str_eqb_refl.
  - destruct (str_eqb k' k) eqn:E; simpl; rewrite E; auto.
Qed.

Lemma dict_get_set_other (d : pydict) k k' v :
  k' <> k -> dict_get (dict_set d k v) k' = dict_get d k'.
Proof.
  intros Hne. induction d as [|[k0 v0] d IH]; simpl.
  - apply str_eqb_neq in Hne.
    destruct (str_eqb k k') eqn:E; auto.
    apply str_eqb_eq in E. apply str_eqb_neq in Hne. congruence.
  - destruct (str_eqb k0 k) eqn:E; simpl.
    + apply str_eqb_eq in E; subst k0.
      destruct (str_eqb k k') eqn:E'; auto.
      apply str_eqb_eq in E'. congruence.
    + now rewrite IH.
Qed.

Lemma dict_set_set (d : pydict) k v :
  dict_set (dict_set d k v) k v = dict_set d k v.
Proof.
  induction d as [|[k' v'] d IH]; simpl.
  - now rewrite str_eqb_refl.
  - destruct (str_eqb k' k) eqn:E; simpl; rewrite E; congruence.
Qed.


(** ** [str.split] *)

(** Python's scan and the specification's cut-and-discard give the same
    words. *)
Lemma split_from_cut (s cur : pystr) :
  split_from (as_word cur) s = filter nonempty (cut_at_spaces cur s).
Proof.
  revert cur. induction s as [|c s IH]; intros cur; simpl.
  - destruct cur as [|x cur]; simpl; auto.
    destruct (rev cur ++ [x]) eqn:E; auto.
    now destruct (rev cur).
  - destruct (isspace c); simpl.
    + rewrite <- (IH []). simpl.
      destruct cur as [|x cur]; simpl; auto.
      destruct (rev cur ++ [x]) eqn:E; auto.
      now destruct (rev cur).
    + rewrite <- (IH (c :: cur)). now destruct cur.
Qed.

Lemma split_from_words (s : pystr) (cur : option pystr) :
  match cur with Some w => is_word w | None => True end ->
  Forall is_word (split_from cur s).
Proof.
  assert (Hrev : forall w, is_word w -> is_word (rev w)).
  { intros w [Hne Hall]. split.
    - intros E. apply Hne. rewrite <- (rev_involutive w), E. reflexivity.
    - rewrite forallb_forall in *. intros x Hx. apply Hall.
      now apply in_rev. }
  revert cur. induction s as [|c s IH]; intros cur Hcur; simpl.
  - destruct cur; auto.
  - destruct (isspace c) eqn:Ec.
    + destruct cur; [constructor|]; auto.
    + destruct cur as [w|]; apply IH.
      * destruct Hcur as [_ Hall]. split; [discriminate|].
        simpl. now rewrite Ec.
      * split; [discriminate|]. simpl. now rewrite Ec.
Qed.

Lemma lstrip_word (w : pystr) : is_word w -> lstrip w = w.
Proof.
  intros [Hne Hall]. destruct w as [|c w]; [congruence|].
  simpl in *. apply andb_prop in Hall as [Hc _].
  now destruct (isspace c).
Qed.

Lemma strip_word (w : pystr) : is_word w -> strip w = w.
Proof.
  intros Hw. unfold strip, rstrip. rewrite (lstrip_word Hw).
  assert (Hr : is_word (rev w)).
  { destruct Hw as [Hne Hall]. split.
    - intros E. apply Hne. rewrite <- (rev_involutive w), E. reflexivity.
    - rewrite forallb_forall in *. intros x Hx. apply Hall.
      now apply in_rev. }
  rewrite (lstrip_word Hr). apply rev_involutive.
Qed.

Lemma filter_nonblank_split (s : pystr) :
  filter nonblank (str_split s) = str_split s.
Proof.
  unfold str_split.
  assert (H : Forall is_word (split_from None s))
    by (apply split_from_words; exact I).
  induction H as [|w l Hw _ IH]; simpl; auto.
  unfold nonblank at 1. rewrite (strip_word Hw).
  destruct Hw as [Hne _]. destruct w; [congruence|]. simpl. now rewrite IH.
Qed.

Lemma calculate_word_count_str (s : pystr) :
  calculate_word_count (PStr s) = Ok (spec_word_count s).
Proof.
  unfold calculate_word_count, spec_word_count.
  destruct s as [|c s]; [reflexivity|].
  change (truthy (PStr (c :: s))) with true. simpl negb. cbv iota.
  unfold method_split, rbind.
  rewrite filter_nonblank_split. unfold str_split.
  now rewrite <- (split_from_cut (c :: s) []).
Qed.

(** ** [calculate_word_count] *)

Lemma calculate_word_count_nonneg (text : pyval) (n : Z) :
  calculate_word_count text = Ok n -> 0 <= n.
Proof.
  unfold calculate_word_count.
  destruct (negb (truthy text)); [intros [= <-]; lia|].
  destruct (method_split text); simpl; [|discriminate].
  intros [= <-]. lia.
Qed.

Lemma spaces_only_count (s : pystr) :
  forallb isspace s = true -> filter nonempty (cut_at_spaces [] s) = [].
Proof.
  induction s as [|c s IH]; simpl; auto.
  intros H. apply andb_prop in H as [Hc Hs]. rewrite Hc. simpl. auto.
Qed.

(** C1, as amended: [calculate_word_count] returns a count for [None]
    and for every string, returns 0 for every falsy value of any type,
    and raises [AttributeError] for every truthy value that is not a
    string. *)
Theorem calculate_word_count_outcomes (text : pyval) :
  (text = PNone \/ is_str text = true ->
   exists n, calculate_word_count text = Ok n /\ 0 <= n)
  /\ (truthy text = false -> calculate_word_count text = Ok 0)
  /\ (truthy text = true -> is_str text = false ->
      calculate_word_count text = Raise (AttributeError (type_of text) "split")).
Proof.
  split; [|split].
  - intros [-> | Hs].
    + exists 0. split; [reflexivity|lia].
    + destruct text; try discriminate.
      exists (spec_word_count s). split; [apply calculate_word_count_str|].
      unfold spec_word_count. lia.
  - intros Hf. unfold calculate_word_count. now rewrite Hf.
  - intros Ht Hs. unfold calculate_word_count. rewrite Ht. simpl.
    destruct text; try discriminate; reflexivity.
Qed.

(** C3: on a string [calculate_word_count] returns the number of
    non-empty pieces between white space characters; the specification's
    examples. *)
Theorem calculate_word_count_tokens :
  (forall s, calculate_word_count (PStr s) = Ok (spec_word_count s))
  /\ calculate_word_count (PStr (lit "one two three")) = Ok 3
  /\ calculate_word_count (PStr []) = Ok 0
  /\ calculate_word_count PNone = Ok 0
  /\ (forall review : pydict,
        dict_get review text_key = None ->
        calculate_word_count (dict_get_default review text_key) = Ok 0)
  /\ (forall s, forallb isspace s = true ->
        calculate_word_count (PStr s) = Ok 0)
  /\ calculate_word_count (PStr irregular_text) = Ok 4.
Proof.
  repeat split; try reflexivity.
  - apply calculate_word_count_str.
  - intros review H. unfold dict_get_default. now rewrite H.
  - intros s H. rewrite calculate_word_count_str. unfold spec_word_count.
    now rewrite spaces_only_count.
Qed.

(** ** The augmentation of one record *)

Lemma text_key_not_wordCount : text_key <> wordCount.
Proof. discriminate. Qed.

Lemma augment_review_idem (review review' : pydict) :
  augment_review review = Ok review' -> augment_review review' = Ok review'.
Proof.
  unfold augment_review, dict_get_default.
  destruct (calculate_word_count
              match dict_get review text_key with Some v => v | None => PNone end)
    as [n|e] eqn:E; simpl; [|discriminate].
  intros [= <-].
  rewrite (dict_get_set_other _ (PInt n) text_key_not_wordCount), E. simpl.
  now rewrite dict_set_set.
Qed.

Lemma augment_review_sets_wordCount (review review' : pydict) :
  augment_review review = Ok review' ->
  exists n, 0 <= n /\ dict_get review' wordCount = Some (PInt n).
Proof.
  unfold augment_review.
  destruct (calculate_word_count (dict_get_default review text_key))
    as [n|e] eqn:E; simpl; [|discriminate].
  intros [= <-]. exists n. split; [eapply calculate_word_count_nonneg; eauto|].
  apply dict_get_set_same.
Qed.


(** ** The loop *)

Lemma augment_loop_idem file_path (reviews : list pyval) (n : nat) :
  augment_loop file_path (fst (fst (augment_loop file_path reviews n))) n
  = augment_loop file_path reviews n.
Proof.
  revert n. induction reviews as [|review rest IH]; intros n; [reflexivity|].
  destruct review as [ | b | z | f | s | l | d ];
    try (simpl; specialize (IH n);
         destruct (augment_loop file_path rest n) as [[rest' out] r];
         simpl in *; now rewrite IH).
  simpl. destruct (augment_review d) as [d'|e] eqn:E.
  - specialize (IH (S n)).
    destruct (augment_loop file_path rest (S n)) as [[rest' out] r].
    simpl in *. rewrite (augment_review_idem _ E). now rewrite IH.
  - simpl. now rewrite E.
Qed.

(** C5: running the loop again on the reviews it left behind changes
    nothing and gives the same outcome, so every [wordCount] is the
    same after two runs as after one. *)
Theorem augment_reviews_idempotent file_path (reviews : list pyval) :
  augment_reviews file_path
    (fst (fst (augment_reviews file_path reviews)))
  = augment_reviews file_path reviews.
Proof. apply augment_loop_idem. Qed.

Lemma augment_loop_shape file_path (reviews : list pyval) (n : nat) :
  let res := augment_loop file_path reviews n in
  List.length (fst (fst res)) = List.length reviews
  /\ (forall i v, nth_error reviews i = Some v -> is_dict v = false ->
        nth_error (fst (fst res)) i = Some v)
  /\ (forall m, snd res = Ok m -> m = (n + count_dicts reviews)%nat).
Proof.
  revert n. induction reviews as [|review rest IH]; intros n.
  - simpl. repeat split; auto. intros m [= <-]. unfold count_dicts. simpl. lia.
  - destruct review as [ | b | z | f | s | l | d ];
      try (simpl; specialize (IH n);
           destruct (augment_loop file_path rest n) as [[rest' out] r];
           simpl in *; destruct IH as (Hl & Hn & Hc);
           split; [congruence|split];
           [intros [|i] v Hv Hd; simpl in *; [congruence|eauto]
           |intros m Hm; apply Hc in Hm; unfold count_dicts in *; simpl; lia]).
    simpl. destruct (augment_review d) as [d'|e] eqn:E.
    + specialize (IH (S n)).
      destruct (augment_loop file_path rest (S n)) as [[rest' out] r].
      simpl in *. destruct IH as (Hl & Hn & Hc).
      split; [congruence|split].
      * intros [|i] v Hv Hd; simpl in *; [|eauto].
        injection Hv as <-. discriminate.
      * intros m Hm. apply Hc in Hm. unfold count_dicts in *. simpl. lia.
    + simpl. repeat split; auto. discriminate.
Qed.

(** C6: on the array of the example the loop gives three elements, the
    first with [wordCount] 2, the second unchanged, the third with
    [wordCount] 1, and the tally 2; on every array the length is kept,
    an element that is not a dictionary stays what and where it is, and
    the tally counts the dictionaries only. *)
Theorem augment_reviews_non_dict file_path :
  json_loads (json_text "[{'text':'a b'}, 'not-an-object', {'text':'c'}]")
  = Ok (PList mixed_reviews)
  /\ augment_reviews file_path mixed_reviews
     = (mixed_reviews_after, [Warn_non_dictionary file_path], Ok 2%nat)
  /\ forall reviews : list pyval,
       let res := augment_reviews file_path reviews in
       List.length (fst (fst res)) = List.length reviews
       /\ (forall i v, nth_error reviews i = Some v -> is_dict v = false ->
             nth_error (fst (fst res)) i = Some v)
       /\ (forall m, snd res = Ok m -> m = count_dicts reviews).
Proof.
  split; [vm_compute; reflexivity|]. split; [reflexivity|].
  intros reviews. apply (augment_loop_shape file_path reviews 0).
Qed.

(** ** The file system *)

Lemma lookup_update_same entries name f fresh child :
  lookup_entry entries name = Some child ->
  lookup_entry (update_entry entries name f fresh) name = Some (f child).
Proof.
  induction entries as [|[k n] rest IH]; simpl; [discriminate|].
  destruct (str_eqb k name) eqn:E; simpl; rewrite E; auto.
  now intros [= ->].
Qed.

Lemma lookup_absent entries name :
  (forall n, In (name, n) entries -> False) ->
  lookup_entry entries name = None.
Proof.
  induction entries as [|[k n] rest IH]; simpl; auto. intros H.
  destruct (str_eqb k name) eqn:E.
  - apply str_eqb_eq in E; subst. exfalso. apply (H n). now left.
  - apply IH. intros n0 Hin. apply (H n0). now right.
Qed.

Lemma lookup_update_other entries name f fresh name' :
  name' <> name ->
  (forall n, In (name', n) fresh -> False) ->
  lookup_entry (update_entry entries name f fresh) name'
  = lookup_entry entries name'.
Proof.
  intros Hne Hfresh.
  induction entries as [|[k n] rest IH]; simpl.
  - now apply lookup_absent.
  - destruct (str_eqb k name) eqn:E; simpl.
    + apply str_eqb_eq in E; subst k.
      destruct (str_eqb name name') eqn:E'; auto.
      apply str_eqb_eq in E'. congruence.
    + now rewrite IH.
Qed.

Lemma get_set_same r p new old :
  get_node r p = Some old -> get_node (set_node r p new) p = Some new.
Proof.
  revert r. induction p as [|c p IH]; intros r; simpl; auto.
  destruct r as [|entries]; [discriminate|].
  destruct (lookup_entry entries c) as [child|] eqn:E; [|discriminate].
  intros H. simpl.
  erewrite lookup_update_same by exact E. now apply IH.
Qed.

Lemma set_file_same_kinds r p a b c a' b' c' :
  get_node r p = Some (File a b c) ->
  same_kinds r (set_node r p (File a' b' c')).
Proof.
  revert r. induction p as [|x p IH]; intros r; simpl.
  - intros [= ->] q. destruct q; reflexivity.
  - destruct r as [|entries]; [discriminate|].
    destruct (lookup_entry entries x) as [child|] eqn:E; [|discriminate].
    intros H [|y q]; [reflexivity|]. simpl.
    destruct (list_eq_dec N.eq_dec y x) as [->|Hne].
    + erewrite lookup_update_same by exact E. rewrite E. now apply IH.
    + rewrite lookup_update_other; auto.
      intros n Hin. destruct p; simpl in Hin; [|contradiction].
      destruct Hin as [[= <- _]|[]]. congruence.
Qed.

Lemma same_kinds_trans r1 r2 r3 :
  same_kinds r1 r2 -> same_kinds r2 r3 -> same_kinds r1 r3.
Proof. intros H1 H2 q. now rewrite H2, H1. Qed.

Lemma walk_same_kinds r r' cur comps path :
  same_kinds r r' -> walk r' cur comps path = walk r cur comps path.
Proof.
  intros H. revert cur. induction comps as [|c rest IH]; intros cur; simpl; auto.
  specialize (H cur).
  destruct (get_node r cur) as [[|]|], (get_node r' cur) as [[|]|];
    try discriminate; auto.
  destruct (str_eqb c [] || str_eqb c dot); auto.
  destruct (str_eqb c dotdot); auto.
Qed.

Lemma resolve_same_kinds w w' path :
  same_kinds (root w) (root w') -> cwd w' = cwd w ->
  resolve w' path = resolve w path.
Proof.
  intros H Hc. unfold resolve. destruct path; auto.
  rewrite Hc. now apply walk_same_kinds.
Qed.

(** ** Writing *)

Lemma utf8_encode_app a b x y :
  utf8_encode a = Ok x -> utf8_encode b = Ok y ->
  utf8_encode (a ++ b) = Ok (x ++ y).
Proof.
  revert x. induction a as [|c a IH]; intros x; simpl.
  - now intros [= <-].
  - destruct (utf8_encode_char c) as [bc|]; simpl; [|discriminate].
    destruct (utf8_encode a) as [ba|]; simpl; [|discriminate].
    intros [= <-] Hb. rewrite (IH ba eq_refl Hb). simpl.
    now rewrite app_assoc.
Qed.

(** What [write_chunks] does to an open file: bytes are only added at
    its end; when no chunk fails, they encode all the chunks. *)
Lemma write_chunks_spec (f : list pystr) (chunks : list pystr) :
  forall w r wr c w' out res,
    get_node (root w) f = Some (File r wr c) ->
    write_chunks f chunks w = (w', out, res) ->
    out = [] /\ same_kinds (root w) (root w') /\ cwd w' = cwd w
    /\ exists c',
         get_node (root w') f = Some (File r wr (c ++ c'))
         /\ (res = Ok tt -> utf8_encode (List.concat chunks) = Ok c').
Proof.
  induction chunks as [|chunk rest IH]; intros w r wr c w' out res Hf; simpl.
  - unfold ret. intros [= <- <- <-].
    split; [reflexivity|]. split; [intros q; reflexivity|].
    split; [reflexivity|]. exists []. rewrite app_nil_r. auto.
  - unfold bind, write at 1.
    destruct (utf8_encode chunk) as [bs|e] eqn:Eb.
    + rewrite Hf.
      set (w1 := World (set_node (root w) f (File r wr (c ++ bs))) (cwd w)).
      assert (Hf1 : get_node (root w1) f = Some (File r wr (c ++ bs)))
        by (simpl; eapply get_set_same; eauto).
      destruct (write_chunks f rest w1) as [[w2 out2] res2] eqn:E2.
      destruct (IH _ _ _ _ _ _ _ Hf1 E2) as (-> & Hk & Hc & c' & Hg & Henc).
      intros [= <- <- <-].
      split; [reflexivity|]. split; [|split; [exact Hc|]].
      * eapply same_kinds_trans; [|exact Hk].
        simpl. eapply set_file_same_kinds; eauto.
      * exists (bs ++ c'). rewrite app_assoc. split; auto.
        intros ->. now apply utf8_encode_app; auto.
    + intros [= <- <- <-].
      split; [reflexivity|]. split; [intros q; reflexivity|].
      split; [reflexivity|]. exists []. rewrite app_nil_r.
      split; auto. discriminate.
Qed.

Lemma stat_file w path n :
  stat w path = Ok n ->
  exists p, resolve w path = Ok p /\ get_node (root w) p = Some n.
Proof.
  unfold stat. destruct (resolve w path) as [p|]; simpl; [|discriminate].
  destruct (get_node (root w) p) eqn:G; [|discriminate].
  intros [= ->]. eauto.
Qed.

(** [json.dump] into an existing file that succeeds leaves the encoded
    text of the data as the file's content. *)
Lemma json_dump_existing (data : pyval) file_path w r wr c w' out :
  stat w file_path = Ok (File r wr c) ->
  json_dump data file_path w = (w', out, Ok tt) ->
  out = []
  /\ exists bytes,
       utf8_encode (List.concat (iterencode data 0)) = Ok bytes
       /\ stat w' file_path = Ok (File r wr bytes).
Proof.
  intros Hs. apply stat_file in Hs as (p & Hp & Hg).
  unfold json_dump, bind, open_write. rewrite Hp, Hg.
  destruct wr; [|discriminate].
  set (w1 := World (set_node (root w) p (File r true [])) (cwd w)).
  assert (Hf1 : get_node (root w1) p = Some (File r true []))
    by (simpl; eapply get_set_same; eauto).
  destruct (write_chunks p (iterencode data 0) w1) as [[w2 out2] res2] eqn:E2.
  destruct (write_chunks_spec _ _ _ Hf1 E2) as (-> & Hk & Hc & c' & Hg' & Henc).
  intros [= <- <- ->]. split; auto. exists c'. split; auto.
  unfold stat.
  assert (Hr : resolve w2 file_path = Ok p).
  { rewrite <- Hp. apply resolve_same_kinds; auto.
    eapply same_kinds_trans; [|exact Hk].
    simpl. eapply set_file_same_kinds; eauto. }
  rewrite Hr. simpl. now rewrite Hg'.
Qed.

(** ** The decoder's fuel *)

Ltac case_if :=
  match goal with
  | |- context [if ?b then _ else _] => destruct b
  end.

Lemma skip_ws_length (s : pystr) :
  (List.length (skip_ws s) <= List.length s)%nat.
Proof.
  induction s as [|c s IH]; simpl; auto.
  destruct (json_ws c); simpl; lia.
Qed.

Lemma span_digits_length (s d r : pystr) :
  span_digits s = (d, r) -> (List.length r <= List.length s)%nat.
Proof.
  revert d r. induction s as [|c s IH]; intros d r; simpl.
  - intros [= <- <-]. auto.
  - destruct (is_digit c).
    + destruct (span_digits s) as [d' r'] eqn:E. intros [= <- <-].
      specialize (IH _ _ eq_refl). lia.
    + intros [= <- <-]. simpl. lia.
Qed.

Lemma match_number_shorter (s integer frac exp rest : pystr) :
  match_number s = Some (integer, frac, exp, rest) ->
  (List.length rest < List.length s)%nat.
Proof.
  unfold match_number.
  set (signed := match s with
                 | c :: s' => if (c =? ch "-")%N then ([c], s') else ([], s)
                 | [] => ([], s)
                 end).
  assert (Hs : (List.length (snd signed) <= List.length s)%nat).
  { subst signed. destruct s as [|c s']; simpl; auto.
    case_if; simpl; lia. }
  destruct signed as [sign s0]. simpl in Hs.
  destruct s0 as [|c s']; [discriminate|].
  set (int_part := if (c =? ch "0")%N then Some ([c], s')
                   else if is_digit c
                        then let (d, r) := span_digits s' in Some (c :: d, r)
                        else None).
  assert (Hi : forall digits s1, int_part = Some (digits, s1) ->
                 (List.length s1 <= List.length s')%nat).
  { subst int_part. intros digits s1.
    destruct (c =? ch "0")%N; [intros [= _ <-]; lia|].
    destruct (is_digit c); [|discriminate].
    destruct (span_digits s') as [d r] eqn:E. intros [= _ <-].
    eapply span_digits_length; eauto. }
  destruct int_part as [[digits s1]|]; [|discriminate].
  specialize (Hi _ _ eq_refl).
  set (frac_part := match s1 with
                    | dot :: s'0 =>
                        match span_digits s'0 with
                        | (d1 :: d, r) =>
                            if (dot =? ch ".")%N then (dot :: d1 :: d, r)
                            else ([], s1)
                        | ([], _) => ([], s1)
                        end
                    | [] => ([], s1)
                    end).
  assert (Hf : (List.length (snd frac_part) <= List.length s1)%nat).
  { subst frac_part. destruct s1 as [|dot s'0]; simpl; auto.
    destruct (span_digits s'0) as [[|d1 d] r] eqn:E; simpl; auto.
    case_if; simpl; auto.
    apply span_digits_length in E. lia. }
  destruct frac_part as [fr s2]. simpl in Hf.
  set (exp_part := match s2 with
                   | e :: s'0 =>
                       if ((e =? ch "e") || (e =? ch "E"))%N then
                         let (esign, s'') :=
                           match s'0 with
                           | c0 :: t =>
                               if ((c0 =? ch "-") || (c0 =? ch "+"))%N
                               then ([c0], t) else ([], s'0)
                           | [] => ([], s'0)
                           end in
                         match span_digits s'' with
                         | (d1 :: d, r) => (e :: esign ++ d1 :: d, r)
                         | ([], _) => ([], s2)
                         end
                       else ([], s2)
                   | [] => ([], s2)
                   end).
  assert (He : (List.length (snd exp_part) <= List.length s2)%nat).
  { subst exp_part. destruct s2 as [|e s'0]; [simpl; auto|].
    case_if; [|simpl; auto].
    set (es := match s'0 with
               | c0 :: t =>
                   if ((c0 =? ch "-") || (c0 =? ch "+"))%N
                   then ([c0], t) else ([], s'0)
               | [] => ([], s'0)
               end).
    assert (Hes : (List.length (snd es) <= List.length s'0)%nat).
    { subst es. destruct s'0 as [|c0 t]; [simpl; auto|].
      case_if; simpl; lia. }
    destruct es as [esign s'']. simpl in Hes.
    destruct (span_digits s'') as [[|d1 d] r] eqn:E; simpl; auto.
    apply span_digits_length in E. lia. }
  destruct exp_part as [ex s3]. simpl in He.
  intros [= _ _ _ <-]. simpl in *. lia.
Qed.

Lemma scanstring_spec (n : nat) :
  forall s acc, (List.length s <= n)%nat ->
  match scanstring s acc with
  | Ok (_, rest) => (List.length rest < List.length s)%nat
  | Raise e => e = JSONDecodeError
  end.
Proof.
  induction n as [|n IH]; intros s acc Hn.
  - destruct s; [reflexivity | simpl in Hn; lia].
  - assert (Hrec : forall s' acc',
               (List.length s' < List.length s)%nat ->
               match scanstring s' acc' with
               | Ok (_, rest) => (List.length rest < List.length s)%nat
               | Raise e => e = JSONDecodeError
               end).
    { intros s' acc' Hlt. specialize (IH s' acc' ltac:(lia)).
      destruct (scanstring s' acc') as [[x rest]|e]; auto. lia. }
    destruct s as [|c s1]; [reflexivity|]. simpl in Hn, Hrec.
    cbn [scanstring].
    destruct (c =? quote)%N; [simpl; lia|].
    destruct (c =? backslash)%N.
    + destruct s1 as [|esc s2]; [reflexivity|].
      destruct (esc =? ch "u")%N.
      * destruct s2 as [|h1 [|h2 [|h3 [|h4 s3]]]]; try reflexivity.
        destruct (hex4 h1 h2 h3 h4) as [uni|]; [|reflexivity].
        destruct s3 as [|b [|u s4]]; try (apply Hrec; simpl; lia).
        destruct (is_high_surrogate uni && (b =? backslash)%N
                  && (u =? ch "u")%N);
          [|apply Hrec; simpl; lia].
        destruct s4 as [|l1 [|l2 [|l3 [|l4 s5]]]]; try reflexivity.
        destruct (hex4 l1 l2 l3 l4) as [uni2|]; [|reflexivity].
        destruct (is_low_surrogate uni2); apply Hrec; simpl; lia.
      * destruct (unescape esc); [|reflexivity]. apply Hrec; simpl; lia.
    + destruct (c <? 32)%N; [reflexivity|]. apply Hrec; simpl; lia.
Qed.

(** With fuel above twice the length of the input, the decoder never
    runs out of it, and what it returns is what is left of the input
    after at least one character. *)
Lemma scan_once_fuel (fuel : nat) :
  (forall s, (2 * List.length s < fuel)%nat ->
     match scan_once fuel s with
     | Ok (_, rest) => (List.length rest < List.length s)%nat
     | Raise e => e <> RecursionError
     end)
  /\ (forall values s, (2 * List.length s + 1 < fuel)%nat ->
        match parse_items fuel values s with
        | Ok (_, rest) => (List.length rest < List.length s)%nat
        | Raise e => e <> RecursionError
        end)
  /\ (forall pairs s, (2 * List.length s + 1 < fuel)%nat ->
        match parse_members fuel pairs s with
        | Ok (_, rest) => (List.length rest < List.length s)%nat
        | Raise e => e <> RecursionError
        end).
Proof.
  induction fuel as [|fuel (IHs & IHi & IHm)];
    [repeat split; intros; lia|].
  assert (Hstr : forall s acc,
             match scanstring s acc with
             | Ok (_, rest) => (List.length rest < List.length s)%nat
             | Raise e => e = JSONDecodeError
             end)
    by (intros s acc; exact (scanstring_spec s acc (le_n (List.length s)))).
  split; [|split].
  - intros s Hf. destruct s as [|c s1]; [simpl; discriminate|].
    cbn [scan_once]. simpl List.length in Hf.
    destruct (c =? quote)%N.
    { specialize (Hstr s1 []). unfold rbind.
      destruct (scanstring s1 []) as [[x rest]|e]; simpl; [lia|].
      subst e. discriminate. }
    destruct (c =? ch "{")%N.
    { pose proof (skip_ws_length s1) as Hw.
      destruct (skip_ws s1) as [|c2 s2]; [discriminate|]. simpl in Hw.
      destruct (c2 =? ch "}")%N; [simpl; lia|].
      specialize (IHm [] (c2 :: s2) ltac:(simpl; lia)).
      destruct (parse_members fuel [] (c2 :: s2)) as [[v rest]|e]; auto.
      simpl in *. lia. }
    destruct (c =? ch "[")%N.
    { pose proof (skip_ws_length s1) as Hw.
      destruct (skip_ws s1) as [|c2 s2]; [discriminate|]. simpl in Hw.
      destruct (c2 =? ch "]")%N; [simpl; lia|].
      specialize (IHi [] (c2 :: s2) ltac:(simpl; lia)).
      destruct (parse_items fuel [] (c2 :: s2)) as [[v rest]|e]; auto.
      simpl in *. lia. }
    assert (Hskip : forall k, (List.length (skipn (S k) (c :: s1))
                               < List.length (c :: s1))%nat).
    { intros k. rewrite length_skipn. simpl. lia. }
    destruct (starts_with (lit "null") (c :: s1)); [apply Hskip|].
    destruct (starts_with (lit "true") (c :: s1)); [apply Hskip|].
    destruct (starts_with (lit "false") (c :: s1)); [apply Hskip|].
    destruct (match_number (c :: s1)) as [[[[integer frac] exp] rest]|] eqn:En.
    { apply match_number_shorter in En.
      destruct frac, exp; auto.
      unfold rbind, parse_int.
      destruct (match integer with
                | [] => (false, [])
                | c0 :: ds =>
                    if (c0 =? ch "-")%N then (true, ds) else (false, integer)
                end) as [neg ds].
      destruct (Nat.ltb int_max_str_digits (List.length ds)); auto.
      discriminate. }
    destruct (starts_with (lit "NaN") (c :: s1)); [apply Hskip|].
    destruct (starts_with (lit "Infinity") (c :: s1)); [apply Hskip|].
    destruct (starts_with (lit "-Infinity") (c :: s1)); [apply Hskip|].
    discriminate.
  - intros values s Hf. cbn [parse_items]. unfold rbind.
    specialize (IHs s ltac:(lia)).
    destruct (scan_once fuel s) as [[value rest]|e]; auto.
    pose proof (skip_ws_length rest) as Hw.
    destruct (skip_ws rest) as [|c r]; [discriminate|]. simpl in Hw.
    destruct (c =? ch "]")%N; [lia|].
    destruct (c =? ch ",")%N; [|discriminate].
    pose proof (skip_ws_length r) as Hw2.
    specialize (IHi (value :: values) (skip_ws r) ltac:(lia)).
    destruct (parse_items fuel (value :: values) (skip_ws r)) as [[v rest2]|e];
      auto. lia.
  - intros pairs s Hf. cbn [parse_members].
    destruct s as [|q s1]; [discriminate|]. simpl List.length in Hf.
    destruct (q =? quote)%N; [|discriminate].
    specialize (Hstr s1 []). unfold rbind at 1.
    destruct (scanstring s1 []) as [[key rest]|e];
      [|subst e; discriminate].
    pose proof (skip_ws_length rest) as Hw.
    destruct (skip_ws rest) as [|colon r]; [discriminate|]. simpl in Hw.
    destruct (colon =? ch ":")%N; [|discriminate].
    pose proof (skip_ws_length r) as Hw2. unfold rbind.
    specialize (IHs (skip_ws r) ltac:(lia)).
    destruct (scan_once fuel (skip_ws r)) as [[value rest2]|e]; auto.
    pose proof (skip_ws_length rest2) as Hw3.
    destruct (skip_ws rest2) as [|c r2]; [discriminate|]. simpl in Hw3.
    destruct (c =? ch "}")%N; [simpl; lia|].
    destruct (c =? ch ",")%N; [|discriminate].
    pose proof (skip_ws_length r2) as Hw4.
    specialize (IHm (dict_set pairs key value) (skip_ws r2) ltac:(lia)).
    destruct (parse_members fuel (dict_set pairs key value) (skip_ws r2))
      as [[v rest3]|e]; auto. simpl. lia.
Qed.

(** [json.loads] has all the fuel it needs. *)
Lemma json_loads_fuel (s : pystr) : json_loads s <> Raise RecursionError.
Proof.
  unfold json_loads. destruct (starts_with [65279%N] s); [discriminate|].
  pose proof (skip_ws_length s) as Hw.
  destruct (scan_once_fuel (2 * List.length s + 2)) as (Hs & _).
  specialize (Hs (skip_ws s) ltac:(lia)). unfold rbind.
  destruct (scan_once (2 * List.length s + 2) (skip_ws s)) as [[obj rest]|e].
  - destruct (skip_ws rest); discriminate.
  - congruence.
Qed.

(** ** [process_reviews_file] *)

Lemma json_load_eq file_path w :
  json_load file_path w = (w, [], snd (json_load file_path w)).
Proof.
  unfold json_load, bind, read_text, lift.
  destruct (stat w file_path) as [[rd wr c|es]|e]; simpl; auto.
  destruct rd; simpl; auto.
  destruct (utf8_decode c); simpl; auto.
Qed.

Lemma json_load_stat file_path w v :
  snd (json_load file_path w) = Ok v ->
  exists wr c, stat w file_path = Ok (File true wr c).
Proof.
  unfold json_load, bind, read_text, lift.
  destruct (stat w file_path) as [[rd wr c|es]|e]; simpl; try discriminate.
  destruct rd; simpl; try discriminate. eauto.
Qed.

Lemma write_chunks_out f chunks w :
  snd (fst (write_chunks f chunks w)) = [].
Proof.
  revert w. induction chunks as [|chunk rest IH]; intros w; [reflexivity|].
  simpl. unfold bind, write at 1.
  destruct (utf8_encode chunk); [|reflexivity].
  destruct (get_node (root w) f) as [[r wr c|es]|].
  - specialize (IH (World (set_node (root w) f (File r wr (c ++ a))) (cwd w))).
    destruct (write_chunks f rest _) as [[w2 o2] r2]. exact IH.
  - specialize (IH w). destruct (write_chunks f rest w) as [[w2 o2] r2].
    exact IH.
  - specialize (IH w). destruct (write_chunks f rest w) as [[w2 o2] r2].
    exact IH.
Qed.

(** [json.dump] either fails to open the file, which changes nothing, or
    opens it, which truncates it, and writes the chunks. *)
Lemma json_dump_cases (data : pyval) file_path w :
  (exists e, json_dump data file_path w = (w, [], Raise e))
  \/ (exists f w1,
        open_write file_path w = (w1, [], Ok f)
        /\ json_dump data file_path w
           = write_chunks f (iterencode data 0) w1).
Proof.
  unfold json_dump, bind.
  destruct (open_write file_path w) as [[w1 o1] [f|e]] eqn:E.
  - assert (o1 = []) as ->.
    { revert E. unfold open_write.
      destruct (resolve w file_path); [|intros [= _ <- _]; reflexivity].
      destruct (get_node (root w) a) as [[r wr c|es]|];
        [destruct wr| |]; intros [= _ <- _]; reflexivity. }
    right. exists f, w1. split; auto.
    destruct (write_chunks f (iterencode data 0) w1) as [[w2 o2] r2].
    reflexivity.
  - left. exists e. revert E. unfold open_write.
    destruct (resolve w file_path); [|intros [= <- <- <-]; reflexivity].
    destruct (get_node (root w) a) as [[r wr c|es]|];
      [destruct wr| |]; intros [= <- <- E]; try discriminate;
      try (injection E as <-); reflexivity.
Qed.

Lemma json_dump_out (data : pyval) file_path w :
  snd (fst (json_dump data file_path w)) = [].
Proof.
  destruct (json_dump_cases data file_path w) as [[e ->]|(f & w1 & _ & ->)];
    [reflexivity | apply write_chunks_out].
Qed.

(** The [try] body, case by case. *)
Lemma process_reviews_body_eq file_path w :
  process_reviews_body file_path w =
  match snd (json_load file_path w) with
  | Raise e => (w, [], Raise e)
  | Ok (PList reviews) =>
      let '(reviews', warnings, outcome) :=
        augment_reviews file_path reviews in
      match outcome with
      | Raise e => (w, warnings, Raise e)
      | Ok updated_count =>
          match json_dump (PList reviews') file_path w with
          | (w', _, Ok _) =>
              (w', warnings ++ [Successfully_processed file_path updated_count],
               Ok true)
          | (w', _, Raise e) => (w', warnings, Raise e)
          end
      end
  | Ok _ => (w, [Warn_not_a_list file_path], Ok false)
  end.
Proof.
  unfold process_reviews_body. unfold bind at 1.
  rewrite (json_load_eq file_path w). simpl snd.
  destruct (snd (json_load file_path w)) as [v|e]; [|reflexivity].
  destruct v; try reflexivity.
  destruct (augment_reviews file_path l) as [[reviews' warnings] outcome].
  unfold bind, prints, lift, print, ret.
  destruct outcome as [n|e]; [|now rewrite app_nil_r].
  pose proof (json_dump_out (PList reviews') file_path w) as Ho.
  destruct (json_dump (PList reviews') file_path w) as [[w' o] [u|e]];
    simpl in Ho; subst o; simpl; rewrite ?app_nil_r; reflexivity.
Qed.

(** Every exception of [exn] is an [Exception]: one of the three
    clauses handles it, prints one line and returns [False]. *)
Lemma process_reviews_handlers_eq file_path e w :
  exists l, process_reviews_handlers file_path e w = (w, [l], Ok false).
Proof.
  unfold process_reviews_handlers.
  destruct (isinstance_exn e Cls_JSONDecodeError); [eexists; reflexivity|].
  destruct (isinstance_exn e Cls_IOError); [eexists; reflexivity|].
  destruct e; eexists; reflexivity.
Qed.

Lemma process_reviews_file_eq file_path w :
  process_reviews_file file_path w =
  match process_reviews_body file_path w with
  | (w1, out1, Ok b) => (w1, out1, Ok b)
  | (w1, out1, Raise e) =>
      (w1, out1 ++ snd (fst (process_reviews_handlers file_path e w1)),
       Ok false)
  end.
Proof.
  unfold process_reviews_file, try_except.
  destruct (process_reviews_body file_path w) as [[w1 out1] [b|e]]; auto.
  destruct (process_reviews_handlers_eq file_path e w1) as [l ->].
  reflexivity.
Qed.



Lemma augment_loop_wordCount file_path (reviews : list pyval) n reviews' out m :
  augment_loop file_path reviews n = (reviews', out, Ok m) ->
  Forall has_wordCount reviews'.
Proof.
  revert n reviews' out. induction reviews as [|review rest IH];
    intros n reviews' out; simpl.
  - intros [= <- _ _]. constructor.
  - destruct review as [ | b | z | f | s | l | d ];
      try (destruct (augment_loop file_path rest n) as [[rest' o] r] eqn:E;
           intros [= <- _ ->]; constructor;
           [intros d0 Hd0; discriminate | eapply IH; eauto]).
    destruct (augment_review d) as [d'|e] eqn:Ed; [|discriminate].
    destruct (augment_loop file_path rest (S n)) as [[rest' o] r] eqn:E.
    intros [= <- _ ->]. constructor; [|eapply IH; eauto].
    intros d0 [= <-]. eapply augment_review_sets_wordCount; eauto.
Qed.

(** C9: when [process_reviews_file] returns [True], the file was
    decoded to a list, the loop went through it, and the file now holds
    the encoded text of the list the loop left, in which every
    dictionary carries [wordCount] with a non-negative integer. *)
Theorem process_reviews_file_success file_path w w' out :
  process_reviews_file file_path w = (w', out, Ok true) ->
  exists (reviews reviews' : list pyval) warnings n bytes r wr,
    snd (json_load file_path w) = Ok (PList reviews)
    /\ augment_reviews file_path reviews = (reviews', warnings, Ok n)
    /\ Forall has_wordCount reviews'
    /\ utf8_encode (List.concat (iterencode (PList reviews') 0)) = Ok bytes
    /\ stat w' file_path = Ok (File r wr bytes).
Proof.
  rewrite process_reviews_file_eq, process_reviews_body_eq.
  destruct (snd (json_load file_path w)) as [v|e] eqn:Hl; [|discriminate].
  destruct (json_load_stat _ _ Hl) as (wr & c & Hs).
  destruct v; try discriminate.
  destruct (augment_reviews file_path l) as [[reviews' warnings] outcome] eqn:Ea.
  destruct outcome as [n|e]; [|discriminate].
  pose proof (json_dump_out (PList reviews') file_path w) as Ho.
  destruct (json_dump (PList reviews') file_path w) as [[w2 o2] [[]|e]] eqn:Ed;
    [|discriminate].
  simpl in Ho; subst o2. intros [= <- _].
  destruct (json_dump_existing _ _ _ Hs Ed) as (_ & bytes & Henc & Hs').
  exists l, reviews', warnings, n, bytes, true, wr.
  split; [reflexivity|]. split; [exact Ea|]. split; [|auto].
  eapply augment_loop_wordCount; eauto.
Qed.

Lemma augment_loop_no_dicts file_path (reviews : list pyval) n :
  forallb (fun v => negb (is_dict v)) reviews = true ->
  augment_loop file_path reviews n
  = (reviews, map (fun _ => Warn_non_dictionary file_path) reviews, Ok n).
Proof.
  induction reviews as [|review rest IH]; simpl; auto.
  intros H. apply andb_prop in H as [Hr Hrest].
  destruct review; try discriminate; now rewrite IH.
Qed.

(** C10, as amended: a file that decodes to an array without any
    dictionary, the empty array included, is written again when the
    write goes through:
    the file then holds the encoded text of the same array,
    [process_reviews_file] reports 0 updated reviews and returns [True],
    and the file counts in the tally.  For the empty array and a file
    that may be written the write does go through, and the file holds
    the two characters of the empty array. *)
Theorem process_reviews_file_zero_updates file_path w (reviews : list pyval) :
  snd (json_load file_path w) = Ok (PList reviews) ->
  forallb (fun v => negb (is_dict v)) reviews = true ->
  (forall w',
     json_dump (PList reviews) file_path w = (w', [], Ok tt) ->
     let out := map (fun _ => Warn_non_dictionary file_path) reviews
                ++ [Successfully_processed file_path 0] in
     process_reviews_file file_path w = (w', out, Ok true)
     /\ process_all [file_path] 0 w = (w', out, Ok 1%nat)
     /\ exists bytes r wr,
          utf8_encode (List.concat (iterencode (PList reviews) 0)) = Ok bytes
          /\ stat w' file_path = Ok (File r wr bytes))
  /\ (reviews = [] ->
      forall r c, stat w file_path = Ok (File r true c) ->
      exists w',
        json_dump (PList reviews) file_path w = (w', [], Ok tt)
        /\ stat w' file_path = Ok (File r true [x5b; x5d])).
Proof.
  intros Hl Hnd. split.
  - intros w' Hd out.
    assert (Hp : process_reviews_file file_path w = (w', out, Ok true)).
    { rewrite process_reviews_file_eq, process_reviews_body_eq, Hl.
      unfold augment_reviews. rewrite (augment_loop_no_dicts _ _ _ Hnd).
      now rewrite Hd. }
    split; [exact Hp|]. split.
    + simpl. unfold bind. rewrite Hp. unfold ret. now rewrite app_nil_r.
    + destruct (json_load_stat _ _ Hl) as (wr & c & Hs).
      destruct (json_dump_existing _ _ _ Hs Hd) as (_ & bytes & Henc & Hs').
      eauto.
  - intros -> r c Hs.
    destruct (stat_file _ _ Hs) as (p & Hp & Hg).
    assert (Hd : json_dump (PList []) file_path w
                 = (World (set_node (set_node (root w) p (File r true [])) p
                             (File r true [x5b; x5d])) (cwd w), [], Ok tt)).
    { unfold json_dump, bind, open_write. rewrite Hp, Hg. simpl.
      unfold bind, write. simpl.
      erewrite get_set_same by eauto. reflexivity. }
    eexists. split; [exact Hd|].
    destruct (json_dump_existing _ _ _ Hs Hd) as (_ & bytes & Henc & Hs').
    simpl in Henc. injection Henc as <-. exact Hs'.
Qed.

(** ** The fuel of [translate], of its chunk loop and of [glob] *)

Lemma span_until_length c (s a b : pystr) :
  span_until c s = Some (a, b) ->
  List.length s = S (List.length a + List.length b).
Proof.
  revert a b. induction s as [|x s IH]; intros a b; simpl; [discriminate|].
  destruct (x =? c)%N.
  - intros [= <- <-]. reflexivity.
  - destruct (span_until c s) as [[a' b']|]; [|discriminate].
    intros [= <- <-]. simpl. now rewrite (IH _ _ eq_refl).
Qed.

Lemma find_close_shorter (r stuff rest : pystr) :
  find_close r = Some (stuff, rest) ->
  (List.length rest < List.length r)%nat.
Proof.
  unfold find_close.
  set (p1 := match r with
             | c :: r' => if (c =? ch "!")%N then ([c], r') else ([], r)
             | [] => ([], r)
             end).
  assert (H1 : (List.length (snd p1) <= List.length r)%nat).
  { subst p1. destruct r as [|c r']; [simpl; auto|]. case_if; simpl; lia. }
  destruct p1 as [pre1 r1]. simpl in H1.
  set (p2 := match r1 with
             | c :: r' => if (c =? ch "]")%N then ([c], r') else ([], r1)
             | [] => ([], r1)
             end).
  assert (H2 : (List.length (snd p2) <= List.length r1)%nat).
  { subst p2. destruct r1 as [|c r']; [simpl; auto|]. case_if; simpl; lia. }
  destruct p2 as [pre2 r2]. simpl in H2.
  destruct (span_until (ch "]") r2) as [[body rest']|] eqn:E; [|discriminate].
  apply span_until_length in E. intros [= _ <-]. lia.
Qed.

(** [translate] gives the same tokens with any fuel that is at least
    the length of the pattern. *)
Lemma translate_fuel (f1 : nat) :
  forall f2 pat,
    (List.length pat <= f1)%nat -> (List.length pat <= f2)%nat ->
    translate f1 pat = translate f2 pat.
Proof.
  induction f1 as [|f1 IH]; intros f2 pat H1 H2.
  - destruct pat; [|simpl in H1; lia]. now destruct f2.
  - destruct f2 as [|f2]; [destruct pat; [reflexivity|simpl in H2; lia]|].
    destruct pat as [|c rest]; [reflexivity|]. simpl in H1, H2.
    cbn [translate].
    destruct (c =? ch "*")%N; [f_equal; apply IH; lia|].
    destruct (c =? ch "?")%N; [f_equal; apply IH; lia|].
    destruct (c =? ch "[")%N; [|f_equal; apply IH; lia].
    destruct (find_close rest) as [[stuff rest']|] eqn:E;
      [|f_equal; apply IH; lia].
    apply find_close_shorter in E. f_equal; apply IH; lia.
Qed.

Lemma find_from_bounds c (s : pystr) (k k' : nat) :
  find_from c s k = Some k' -> (k <= k' < List.length s)%nat.
Proof.
  revert k k'. induction s as [|x s IH]; intros k k'; [destruct k; discriminate|].
  destruct k as [|k]; simpl.
  - destruct (x =? c)%N; [intros [= <-]; lia|].
    destruct (find_from c s 0) as [j|] eqn:E; [|discriminate].
    intros [= <-]. apply IH in E. lia.
  - destruct (find_from c s k) as [j|] eqn:E; [|discriminate].
    intros [= <-]. apply IH in E. lia.
Qed.

(** The chunk loop gives the same chunks with any fuel that covers what
    is left of the class after [k]. *)
Lemma range_chunks_fuel (f1 : nat) :
  forall f2 stuff i k,
    (List.length stuff - k <= f1)%nat -> (List.length stuff - k <= f2)%nat ->
    range_chunks f1 stuff i k = range_chunks f2 stuff i k.
Proof.
  induction f1 as [|f1 IH]; intros f2 stuff i k H1 H2.
  - destruct f2 as [|f2]; [reflexivity|]. cbn [range_chunks].
    destruct (find_from (ch "-") stuff k) as [k'|] eqn:E; [|reflexivity].
    apply find_from_bounds in E. lia.
  - cbn [range_chunks].
    destruct (find_from (ch "-") stuff k) as [k'|] eqn:E.
    + pose proof (find_from_bounds _ _ _ E) as Hb.
      destruct f2 as [|f2]; [lia|]. cbn [range_chunks]. rewrite E.
      f_equal. apply IH; lia.
    + destruct f2; cbn [range_chunks]; [reflexivity|now rewrite E].
Qed.

Lemma cut_at_slash_app_eq (r : pystr) :
  r = fst (cut_at_slash r) ++ snd (cut_at_slash r).
Proof.
  induction r as [|c r IH]; simpl; auto.
  destruct (c =? slash)%N; [reflexivity|].
  destruct (cut_at_slash r) as [t h]. simpl in *. now f_equal.
Qed.

Lemma rstrip_slash_rev_length (r : pystr) :
  (List.length (rstrip_slash_rev r) <= List.length r)%nat.
Proof.
  induction r as [|c r IH]; simpl; auto.
  destruct (c =? slash)%N; simpl; lia.
Qed.

(** The directory part of a path is the path itself or is shorter. *)
Lemma path_split_head_length (p : pystr) :
  (List.length (fst (path_split p)) <= List.length p)%nat
  /\ (List.length (fst (path_split p)) = List.length p ->
      fst (path_split p) = p).
Proof.
  unfold path_split.
  pose proof (cut_at_slash_app_eq (rev p)) as Hr.
  destruct (cut_at_slash (rev p)) as [t h]. simpl in Hr.
  assert (Hp : p = rev h ++ rev t)
    by (rewrite <- rev_app_distr, <- Hr, rev_involutive; reflexivity).
  assert (Hlen : List.length p = (List.length h + List.length t)%nat)
    by (rewrite Hp, length_app, !length_rev; reflexivity).
  pose proof (rstrip_slash_rev_length h) as Hs.
  destruct (forallb (N.eqb slash) (rev h)); cbn [fst].
  - rewrite length_rev. split; [lia|]. intros He.
    assert (t = []) as -> by (destruct t; [reflexivity|simpl in *; lia]).
    rewrite Hp. simpl. now rewrite app_nil_r.
  - rewrite length_rev. split; [lia|]. intros He.
    assert (t = []) as -> by (destruct t; [reflexivity|simpl in *; lia]).
    assert (Hh : rstrip_slash_rev h = h).
    { destruct h as [|c h']; [reflexivity|]. simpl in *.
      destruct (c =? slash)%N; [|reflexivity].
      pose proof (rstrip_slash_rev_length h'). lia. }
    rewrite Hh, Hp. simpl. now rewrite app_nil_r.
Qed.

(** [iglob] gives the same paths with any fuel above the length of the
    pattern. *)
Lemma iglob_fuel (f1 : nat) :
  forall f2 w pathname dironly,
    (List.length pathname < f1)%nat -> (List.length pathname < f2)%nat ->
    iglob f1 w pathname dironly = iglob f2 w pathname dironly.
Proof.
  induction f1 as [|f1 IH]; intros f2 w pathname dironly H1 H2; [lia|].
  destruct f2 as [|f2]; [lia|]. cbn [iglob].
  destruct (path_split_head_length pathname) as [Hle Heq].
  destruct (path_split pathname) as [dirname basename]. cbn [fst] in Hle, Heq.
  destruct (negb (has_magic pathname)); [reflexivity|].
  destruct dirname as [|c d]; [reflexivity|].
  destruct (str_eqb (c :: d) pathname) eqn:E; [reflexivity|].
  apply str_eqb_neq in E. cbn [negb andb].
  destruct (has_magic (c :: d)); [|reflexivity].
  assert (Hlt : (List.length (c :: d) < List.length pathname)%nat).
  { destruct (Nat.eq_dec (List.length (c :: d)) (List.length pathname)) as [He|];
      [elim E; now apply Heq | lia]. }
  rewrite (IH f2 w (c :: d) true) by lia. reflexivity.
Qed.

(** ** [fnmatch] on the pattern of the program *)

Lemma str_eqb_cons c a x b :
  str_eqb (c :: a) (x :: b) = (c =? x)%N && str_eqb a b.
Proof.
  apply Bool.eq_iff_eq_true.
  rewrite andb_true_iff, N.eqb_eq, !str_eqb_eq.
  split; [intros [= -> ->]; auto | intros [-> ->]; auto].
Qed.

(** A pattern of plain characters matches the name equal to it. *)
Lemma match_tokens_chars (p name : pystr) :
  match_tokens (map PChar p) name = str_eqb name p.
Proof.
  revert name. induction p as [|x p IH]; intros [|c name];
    cbn [map match_tokens token_matches].
  - reflexivity.
  - symmetry. now apply str_eqb_neq.
  - symmetry. now apply str_eqb_neq.
  - rewrite str_eqb_cons, IH, (N.eqb_sym x c). reflexivity.
Qed.

Lemma ends_with_cons suffix c s :
  hd_error suffix <> Some c ->
  ends_with suffix (c :: s) = ends_with suffix s.
Proof.
  intros H. cbn [ends_with].
  destruct (str_eqb (c :: s) suffix) eqn:E; auto.
  apply str_eqb_eq in E. subst suffix. now elim H.
Qed.

Lemma fnmatch_reviews (name : pystr) :
  fnmatchcase name (lit "Reviews*.json") = is_reviews_name name.
Proof.
  unfold fnmatchcase, is_reviews_name.
  change (translate _ _)
    with (map PChar (lit "Reviews") ++ PStar :: map PChar (lit ".json")).
  assert (Hstar : forall n,
             match_tokens (PStar :: map PChar (lit ".json")) n
             = ends_with (lit ".json") n).
  { induction n as [|c n IH].
    - reflexivity.
    - cbn [match_tokens ends_with] in *. rewrite IH.
      now rewrite match_tokens_chars. }
  assert (Hpre : forall p n,
             (forall c, In c p -> hd_error (lit ".json") <> Some c) ->
             match_tokens (map PChar p ++ PStar :: map PChar (lit ".json")) n
             = starts_with p n && ends_with (lit ".json") n).
  { induction p as [|x p IH]; intros n Hp.
    - simpl app. rewrite Hstar. reflexivity.
    - destruct n as [|c n]; [reflexivity|].
      cbn [map app match_tokens token_matches starts_with].
      destruct (x =? c)%N eqn:E; [|reflexivity].
      apply N.eqb_eq in E. subst c. simpl andb.
      rewrite IH by (intros c Hc; apply Hp; now right).
      destruct (str_eqb (x :: n) (lit ".json")) eqn:E; [|reflexivity].
      apply str_eqb_eq in E. exfalso. apply (Hp x); [now left|].
      rewrite <- E. reflexivity. }
  apply Hpre. intros c Hc Heq. injection Heq as <-.
  revert Hc. vm_compute. intuition discriminate.
Qed.

(** ** [os.path] on the pattern of the program *)

Lemma cut_at_slash_app (a r : pystr) :
  no_slash a ->
  cut_at_slash (a ++ r)
  = (a ++ fst (cut_at_slash r), snd (cut_at_slash r)).
Proof.
  unfold no_slash. induction a as [|c a IH]; simpl.
  - now destruct (cut_at_slash r).
  - intros H. apply andb_prop in H as [Hc Ha].
    destruct (c =? slash)%N; [discriminate|].
    rewrite (IH Ha). reflexivity.
Qed.

Lemma in_rstrip_slash_rev c (r : pystr) :
  In c (rstrip_slash_rev r) -> In c r.
Proof.
  induction r as [|x r IH]; simpl; auto.
  destruct (x =? slash)%N; simpl; auto.
Qed.


(** Splitting the pattern the program builds: the tail is
    [Reviews*.json], and the head holds no character that was not in the
    directory, apart from slashes. *)
Lemma path_split_pattern (directory : pystr) :
  let pathname := path_join directory (lit "Reviews*.json") in
  snd (path_split pathname) = lit "Reviews*.json"
  /\ (forall c, In c (fst (path_split pathname)) ->
        In c directory \/ c = slash)
  /\ (directory <> [] -> ends_with_slash directory = false ->
      fst (path_split pathname) = directory).
Proof.
  set (pat := lit "Reviews*.json").
  assert (Hpat : no_slash (rev pat)) by reflexivity.
  assert (Hsplit : forall head_rev,
             (head_rev = [] \/ exists t, head_rev = slash :: t) ->
             path_split (rev head_rev ++ pat)
             = (if forallb (N.eqb slash) (rev head_rev) then rev head_rev
                else rev (rstrip_slash_rev head_rev), pat)).
  { intros head_rev Hh. unfold path_split.
    rewrite rev_app_distr, rev_involutive, (cut_at_slash_app _ Hpat).
    assert (Hc : cut_at_slash head_rev = ([], head_rev)).
    { destruct Hh as [->|[t ->]]; reflexivity. }
    rewrite Hc. simpl fst. simpl snd. rewrite app_nil_r, rev_involutive.
    destruct (forallb (N.eqb slash) (rev head_rev)); reflexivity. }
  assert (Hin : forall head_rev c,
             In c (if forallb (N.eqb slash) (rev head_rev) then rev head_rev
                   else rev (rstrip_slash_rev head_rev)) ->
             In c head_rev).
  { intros head_rev c. destruct (forallb _ _); intros H;
      apply in_rev in H; auto. now apply in_rstrip_slash_rev. }
  unfold path_join. simpl starts_with. cbv iota.
  destruct directory as [|c0 d0].
  - cbn [orb app]. change (path_split pat) with (@nil N, pat).
    split; [reflexivity|]. split; [intros c []|congruence].
  - set (d := c0 :: d0). cbn [orb]. unfold ends_with_slash.
    destruct (rev d) as [|x r] eqn:Er.
    + exfalso. apply (f_equal (@rev N)) in Er.
      rewrite rev_involutive in Er. discriminate.
    + assert (Hdr : d = rev (x :: r))
        by (rewrite <- Er; symmetry; apply rev_involutive).
      destruct (x =? slash)%N eqn:Ex.
      * apply N.eqb_eq in Ex. subst x.
        rewrite Hdr, (Hsplit (slash :: r)) by eauto.
        cbn [fst snd]. split; [reflexivity|]. split.
        -- intros c Hc. left. apply in_rev. rewrite rev_involutive.
           eapply Hin; eauto.
        -- intros _ [=].
      * change (d ++ slash :: pat) with (d ++ [slash] ++ pat).
        rewrite app_assoc.
        assert (Hds : d ++ [slash] = rev (slash :: x :: r))
          by (change (rev (slash :: x :: r)) with (rev (x :: r) ++ [slash]);
              now rewrite <- Hdr).
        rewrite Hds.
        rewrite (Hsplit (slash :: x :: r)) by eauto.
        cbn [fst snd]. split; [reflexivity|]. split.
        -- intros c Hc. apply Hin in Hc. destruct Hc as [<-|Hc]; auto.
           left. rewrite Hdr. now apply -> in_rev.
        -- intros _ _.
           assert (Hf : forallb (N.eqb slash) (rev (slash :: x :: r)) = false).
           { apply not_true_is_false. intros Ht.
             rewrite forallb_forall in Ht.
             specialize (Ht x). rewrite N.eqb_sym, Ex in Ht.
             assert (In x (rev (slash :: x :: r)))
               by (apply -> in_rev; simpl; auto).
             intuition discriminate. }
           rewrite Hf. cbn [rstrip_slash_rev]. rewrite N.eqb_refl, Ex.
           symmetry. exact Hdr.
Qed.

(** ** [glob] on the pattern of the program *)

Lemma filter_filter_implied {A} (f g : A -> bool) (l : list A) :
  (forall x, f x = true -> g x = true) ->
  filter f (filter g l) = filter f l.
Proof.
  intros H. induction l as [|x l IH]; simpl; auto.
  destruct (g x) eqn:Eg; simpl.
  - now rewrite IH.
  - destruct (f x) eqn:Ef; auto. rewrite (H x Ef) in Eg. discriminate.
Qed.

Lemma glob1_reviews w (dirname : pystr) :
  glob1 w dirname (lit "Reviews*.json") false
  = filter is_reviews_name (listdir w dirname false).
Proof.
  unfold glob1, fnmatch_filter.
  change (ishidden (lit "Reviews*.json")) with false. cbn [negb].
  rewrite filter_filter_implied.
  - apply filter_ext. intros name. apply fnmatch_reviews.
  - intros name. rewrite fnmatch_reviews. unfold is_reviews_name.
    destruct name as [|c name]; [discriminate|].
    cbn [starts_with lit list_ascii_of_string map].
    destruct (N_of_ascii "R" =? c)%N eqn:E; [|discriminate].
    apply N.eqb_eq in E. subst c. reflexivity.
Qed.

Lemma has_magic_pattern (directory : pystr) :
  has_magic (path_join directory (lit "Reviews*.json")) = true.
Proof.
  unfold path_join. simpl starts_with. cbv iota.
  unfold has_magic.
  destruct (match directory with [] => true | _ => false end
            || ends_with_slash directory);
    rewrite existsb_app; apply orb_true_iff; right; reflexivity.
Qed.


(** ** [sorted] *)

Lemma str_leb_total (a b : pystr) :
  str_leb a b = false -> str_leb b a = true.
Proof.
  revert b. induction a as [|x a IH]; intros [|y b]; simpl; auto;
    try discriminate.
  destruct (x <? y)%N eqn:E1; [discriminate|].
  destruct (y <? x)%N eqn:E2; auto.
Qed.

Lemma insert_sorted_perm (x : pystr) (l : list pystr) :
  Permutation (insert_sorted x l) (x :: l).
Proof.
  induction l as [|y l IH]; simpl; auto.
  destruct (str_leb x y); auto.
  rewrite IH. apply perm_swap.
Qed.

Lemma insert_sorted_sorted (x : pystr) (l : list pystr) :
  Sorted str_le l -> Sorted str_le (insert_sorted x l).
Proof.
  induction 1 as [|y l Hs IH Hhd]; simpl.
  - repeat constructor.
  - destruct (str_leb x y) eqn:E.
    + constructor; [now constructor | now constructor].
    + constructor; auto.
      destruct l as [|z l]; simpl.
      * constructor. now apply str_leb_total.
      * destruct (str_leb x z) eqn:E2; constructor.
        -- now apply str_leb_total.
        -- now inversion Hhd.
Qed.

Lemma sorted_perm (l : list pystr) : Permutation (sorted l) l.
Proof.
  induction l as [|x l IH]; simpl; auto.
  rewrite insert_sorted_perm. now constructor.
Qed.

Lemma sorted_sorted (l : list pystr) : Sorted str_le (sorted l).
Proof.
  induction l as [|x l IH]; simpl; [constructor|].
  now apply insert_sorted_sorted.
Qed.

(** ** [find_reviews_files] *)


(** ** [main] *)




(** ** More on [calculate_word_count] *)

Lemma split_from_some_nonempty (s w : pystr) : split_from (Some w) s <> [].
Proof.
  revert w. induction s as [|c s IH]; intros w; simpl; [discriminate|].
  destruct (isspace c); [discriminate | apply IH].
Qed.

Lemma split_from_none_blank (s : pystr) :
  split_from None s = [] <-> forallb isspace s = true.
Proof.
  induction s as [|c s IH]; simpl; [tauto|].
  destruct (isspace c); simpl; [exact IH|].
  split; [|discriminate]. intros H. now apply split_from_some_nonempty in H.
Qed.

Lemma split_from_app (a b : pystr) (c : N) (cur : option pystr) :
  isspace c = true ->
  split_from cur (a ++ c :: b) = split_from cur a ++ split_from None b.
Proof.
  intros Hc. revert cur. induction a as [|x a IH]; intros cur; simpl.
  - rewrite Hc. now destruct cur.
  - destruct (isspace x); destruct cur; simpl; now rewrite IH.
Qed.

Lemma split_from_bound (s : pystr) (cur : option pystr) :
  (2 * List.length (split_from cur s)
   <= List.length s + match cur with None => 1 | Some _ => 2 end)%nat.
Proof.
  revert cur. induction s as [|c s IH]; intros cur; simpl.
  - destruct cur; simpl; lia.
  - destruct (isspace c), cur as [w|]; simpl.
    + specialize (IH None). simpl in IH. lia.
    + specialize (IH None). simpl in IH. lia.
    + specialize (IH (Some (c :: w))). simpl in IH. lia.
    + specialize (IH (Some [c])). simpl in IH. lia.
Qed.

Lemma calculate_word_count_split (s : pystr) :
  calculate_word_count (PStr s) = Ok (Z.of_nat (List.length (str_split s))).
Proof.
  destruct s as [|c s]; [reflexivity|].
  unfold calculate_word_count.
  change (truthy (PStr (c :: s))) with true. simpl negb. cbv iota.
  unfold method_split, rbind. now rewrite filter_nonblank_split.
Qed.

(** X1: the filter [if word.strip()] of line 30 never removes a word:
    on every string the count is the number of words [text.split()]
    returns, and these are the same list before and after the filter. *)
Theorem calculate_word_count_filter_keeps_all (s : pystr) :
  filter nonblank (str_split s) = str_split s
  /\ calculate_word_count (PStr s)
     = Ok (Z.of_nat (List.length (str_split s))).
Proof.
  split; [apply filter_nonblank_split | apply calculate_word_count_split].
Qed.

(** X2: on a string the count is 0 exactly when the string holds nothing
    but white space (the empty string included). *)
Theorem calculate_word_count_zero_iff_blank (s : pystr) :
  calculate_word_count (PStr s) = Ok 0 <-> forallb isspace s = true.
Proof.
  rewrite calculate_word_count_split, <- split_from_none_blank.
  unfold str_split. destruct (split_from None s); simpl.
  - tauto.
  - split; [intros [= H]; lia | discriminate].
Qed.

(** X3: the count of a string of [n] characters is at least 0 and at
    most [(n + 1) / 2]: two words need a white space character between
    them. *)
Theorem calculate_word_count_bound (s : pystr) :
  exists n,
    calculate_word_count (PStr s) = Ok n
    /\ 0 <= n /\ 2 * n <= Z.of_nat (List.length s) + 1.
Proof.
  exists (Z.of_nat (List.length (str_split s))).
  split; [apply calculate_word_count_split|].
  pose proof (split_from_bound s None) as H. unfold str_split. simpl in H.
  lia.
Qed.

(** X4: counts add up across white space: when [c] is a white space
    character, the count of [a], [c], [b] put together is the count of
    [a] plus the count of [b]. *)
Theorem calculate_word_count_additive (a b : pystr) (c : N) :
  isspace c = true ->
  calculate_word_count (PStr (a ++ c :: b))
  = (na <- calculate_word_count (PStr a) ;;
     nb <- calculate_word_count (PStr b) ;;
     Ok (na + nb)).
Proof.
  intros Hc. rewrite !calculate_word_count_split. unfold rbind, str_split.
  rewrite split_from_app by exact Hc. rewrite length_app. f_equal. lia.
Qed.

Lemma split_from_trailing_blank (s ws : pystr) (cur : option pystr) :
  forallb isspace ws = true ->
  split_from cur (s ++ ws) = split_from cur s.
Proof.
  destruct ws as [|c ws]; [now rewrite app_nil_r|].
  simpl. intros H. apply andb_prop in H as [Hc Hws].
  rewrite split_from_app by exact Hc.
  apply split_from_none_blank in Hws. rewrite Hws. apply app_nil_r.
Qed.

Lemma split_from_lstrip (s : pystr) :
  split_from None (lstrip s) = split_from None s.
Proof.
  induction s as [|c s IH]; simpl; auto.
  destruct (isspace c) eqn:E; auto. simpl. now rewrite E.
Qed.

Lemma lstrip_decompose (s : pystr) :
  exists ws, forallb isspace ws = true /\ s = ws ++ lstrip s.
Proof.
  induction s as [|c s (ws & Hws & Hs)]; [exists []; auto|].
  simpl. destruct (isspace c) eqn:E.
  - exists (c :: ws). simpl. rewrite E, Hws. split; auto. now f_equal.
  - exists []. auto.
Qed.

(** X5: white space at the start and at the end of the text does not
    count: the count of [text.strip()] is the count of [text]. *)
Theorem calculate_word_count_strip (s : pystr) :
  calculate_word_count (PStr (strip s)) = calculate_word_count (PStr s).
Proof.
  rewrite !calculate_word_count_split. unfold str_split, strip, rstrip.
  do 3 f_equal.
  destruct (lstrip_decompose (rev (lstrip s))) as (ws & Hws & Hr).
  assert (Hs : lstrip s = rev (lstrip (rev (lstrip s))) ++ rev ws).
  { rewrite <- rev_app_distr, <- Hr. symmetry. apply rev_involutive. }
  rewrite <- (split_from_lstrip s). rewrite Hs at 2.
  symmetry. apply split_from_trailing_blank.
  rewrite forallb_forall in *. intros x Hx. apply Hws. now apply in_rev.
Qed.

(** ** More on the augmentation *)

Lemma dict_set_keys (d : pydict) k v :
  map fst (dict_set d k v)
  = match dict_get d k with
    | Some _ => map fst d
    | None => map fst d ++ [k]
    end.
Proof.
  induction d as [|[k' v'] d IH]; simpl; auto.
  destruct (str_eqb k' k); simpl; auto.
  rewrite IH. now destruct (dict_get d k).
Qed.

(** X6: the augmentation keeps the order of the keys: a record that
    already has [wordCount] keeps it where it is, with the new value; a
    record without it gets it as its last key. *)
Theorem augment_review_key_order (review review' : pydict) :
  augment_review review = Ok review' ->
  map fst review'
  = match dict_get review wordCount with
    | Some _ => map fst review
    | None => map fst review ++ [wordCount]
    end.
Proof.
  unfold augment_review.
  destruct (calculate_word_count (dict_get_default review text_key));
    simpl; [|discriminate].
  intros [= <-]. apply dict_set_keys.
Qed.

Lemma augment_loop_warnings file_path (reviews : list pyval) n reviews' out m :
  augment_loop file_path reviews n = (reviews', out, Ok m) ->
  out = repeat (Warn_non_dictionary file_path)
          (List.length reviews - count_dicts reviews)
  /\ (count_dicts reviews <= List.length reviews)%nat.
Proof.
  revert n reviews' out. unfold count_dicts.
  induction reviews as [|review rest IH]; intros n reviews' out.
  - simpl. intros [= _ <- _]. auto.
  - destruct review as [ | b | z | f | s | l | d ];
      cbn [augment_loop filter is_dict List.length];
      try (destruct (augment_loop file_path rest n) as [[rest' o] r] eqn:E;
           intros [= _ <- ->]; destruct (IH _ _ _ E) as [-> Hle];
           split; [|lia];
           replace (S (List.length rest) - List.length (filter is_dict rest))%nat
             with (S (List.length rest - List.length (filter is_dict rest)))
             by lia; reflexivity).
    destruct (augment_review d) as [d'|e]; [|discriminate].
    destruct (augment_loop file_path rest (S n)) as [[rest' o] r] eqn:E.
    intros [= _ <- ->]. destruct (IH _ _ _ E) as [-> Hle].
    split; [reflexivity | lia].
Qed.

(** X7: when [process_reviews_file] returns [True], what it printed is
    one warning for each element of the array that is not a dictionary,
    then the line of success with the number of dictionaries: warnings
    and updated reviews add up to the length of the array. *)
Theorem process_reviews_file_report file_path w w' out :
  process_reviews_file file_path w = (w', out, Ok true) ->
  exists (reviews : list pyval) (n : nat),
    snd (json_load file_path w) = Ok (PList reviews)
    /\ n = count_dicts reviews
    /\ (n <= List.length reviews)%nat
    /\ out = repeat (Warn_non_dictionary file_path) (List.length reviews - n)
             ++ [Successfully_processed file_path n].
Proof.
  rewrite process_reviews_file_eq, process_reviews_body_eq.
  destruct (snd (json_load file_path w)) as [v|e] eqn:Hl; [|discriminate].
  destruct v; try discriminate.
  destruct (augment_reviews file_path l) as [[reviews' warnings] outcome] eqn:Ea.
  destruct outcome as [n|e]; [|discriminate].
  destruct (json_dump (PList reviews') file_path w) as [[w2 o2] [[]|e]];
    [|discriminate].
  intros [= _ <-].
  destruct (augment_loop_warnings _ _ _ Ea) as [-> Hle].
  pose proof (augment_loop_shape file_path l 0) as (_ & _ & Hn).
  unfold augment_reviews in Ea. rewrite Ea in Hn.
  specialize (Hn n eq_refl). simpl in Hn. subst n.
  exists l, (count_dicts l). auto.
Qed.

(** ** The errors of [process_reviews_file] *)





(** ** What a run leaves of the file system *)

Lemma lookup_shape entries c :
  lookup_entry (map (fun e => (fst e, shape (snd e))) entries) c
  = option_map shape (lookup_entry entries c).
Proof.
  induction entries as [|[k n] rest IH]; simpl; auto.
  destruct (str_eqb k c); auto.
Qed.

Lemma get_node_shape r q :
  get_node (shape r) q = option_map shape (get_node r q).
Proof.
  revert r. induction q as [|c q IH]; intros r; [reflexivity|].
  destruct r as [a b c0|entries]; [reflexivity|].
  cbn [shape get_node]. rewrite lookup_shape.
  destruct (lookup_entry entries c); simpl; auto.
Qed.

Lemma shape_same_kinds r r' : shape r' = shape r -> same_kinds r r'.
Proof.
  intros H q.
  assert (K : forall n, node_kind (option_map shape (get_node n q))
                        = node_kind (get_node n q))
    by (intros n; destruct (get_node n q) as [[|]|]; reflexivity).
  now rewrite <- (K r), <- (K r'), <- !get_node_shape, H.
Qed.

Lemma update_entry_shape entries x f fresh child :
  lookup_entry entries x = Some child ->
  shape (f child) = shape child ->
  map (fun e => (fst e, shape (snd e))) (update_entry entries x f fresh)
  = map (fun e => (fst e, shape (snd e))) entries.
Proof.
  intros Hl Hf. induction entries as [|[k n] rest IH]; [discriminate|].
  simpl in *. destruct (str_eqb k x); simpl.
  - injection Hl as ->. now rewrite Hf.
  - now rewrite IH.
Qed.

Lemma shape_set_file r p a b c c' :
  get_node r p = Some (File a b c) ->
  shape (set_node r p (File a b c')) = shape r.
Proof.
  revert r. induction p as [|x p IH]; intros r; simpl.
  - now intros [= ->].
  - destruct r as [|entries]; [discriminate|].
    destruct (lookup_entry entries x) as [child|] eqn:E; [|discriminate].
    intros H. simpl. f_equal.
    eapply update_entry_shape; [exact E | now apply IH].
Qed.

Lemma get_set_other r p q new a b c a' b' c' :
  get_node r p = Some (File a b c) ->
  q <> p ->
  get_node r q = Some (File a' b' c') ->
  get_node (set_node r p new) q = Some (File a' b' c').
Proof.
  revert r q. induction p as [|x p IH]; intros r q; simpl.
  - intros [= ->] Hq. destruct q; [congruence | discriminate].
  - destruct r as [|entries]; [discriminate|].
    destruct (lookup_entry entries x) as [child|] eqn:E; [|discriminate].
    intros H Hq. destruct q as [|y q]; [discriminate|]. simpl.
    destruct (list_eq_dec N.eq_dec y x) as [->|Hne].
    + erewrite lookup_update_same by exact E. rewrite E.
      apply IH; congruence.
    + rewrite lookup_update_other; auto.
      intros n Hin. destruct p; simpl in Hin; [|contradiction].
      destruct Hin as [[= <- _]|[]]. congruence.
Qed.

Lemma write_chunks_frame (f : list pystr) (chunks : list pystr) :
  forall w r wr c w' out res,
    get_node (root w) f = Some (File r wr c) ->
    write_chunks f chunks w = (w', out, res) ->
    shape (root w') = shape (root w)
    /\ files_kept (eq f) (root w) (root w').
Proof.
  induction chunks as [|chunk rest IH]; intros w r wr c w' out res Hf; simpl.
  - unfold ret. intros [= <- _ _]. split; [reflexivity|]. now intros q a b c0.
  - unfold bind, write at 1.
    destruct (utf8_encode chunk) as [bs|e] eqn:Eb.
    + rewrite Hf.
      set (w1 := World (set_node (root w) f (File r wr (c ++ bs))) (cwd w)).
      assert (Hf1 : get_node (root w1) f = Some (File r wr (c ++ bs)))
        by (simpl; eapply get_set_same; eauto).
      destruct (write_chunks f rest w1) as [[w2 out2] res2] eqn:E2.
      destruct (IH _ _ _ _ _ _ _ Hf1 E2) as (Hs & Hk).
      intros [= <- _ _]. split.
      * rewrite Hs. simpl. eapply shape_set_file; eauto.
      * intros q a b c0 Hq Hg. apply Hk; auto. simpl.
        eapply get_set_other; eauto.
    + intros [= <- _ _]. split; [reflexivity|]. now intros q a b c0.
Qed.

Lemma json_dump_frame (data : pyval) file_path w r wr c :
  stat w file_path = Ok (File r wr c) ->
  let w' := fst (fst (json_dump data file_path w)) in
  cwd w' = cwd w
  /\ shape (root w') = shape (root w)
  /\ files_kept (fun q => resolve w file_path = Ok q) (root w) (root w').
Proof.
  intros Hs. apply stat_file in Hs as (p & Hp & Hg).
  unfold json_dump, bind, open_write. rewrite Hp, Hg.
  destruct wr; [|simpl; split; [|split]; auto; now intros q a b c0].
  set (w1 := World (set_node (root w) p (File r true [])) (cwd w)).
  assert (Hf1 : get_node (root w1) p = Some (File r true []))
    by (simpl; eapply get_set_same; eauto).
  destruct (write_chunks p (iterencode data 0) w1) as [[w2 out2] res2] eqn:E2.
  destruct (write_chunks_spec _ _ _ Hf1 E2) as (_ & _ & Hc & _).
  destruct (write_chunks_frame _ _ _ Hf1 E2) as (Hsh & Hk).
  cbn [fst]. split; [exact Hc|]. split.
  - rewrite Hsh. simpl. eapply shape_set_file; eauto.
  - intros q a b c0 Hq Hq'. apply Hk; [congruence|]. simpl.
    eapply get_set_other; eauto. congruence.
Qed.

Lemma process_reviews_file_keeps file_path w :
  let w' := fst (fst (process_reviews_file file_path w)) in
  cwd w' = cwd w
  /\ shape (root w') = shape (root w)
  /\ files_kept (fun q => resolve w file_path = Ok q) (root w) (root w').
Proof.
  assert (Hsame : cwd w = cwd w /\ shape (root w) = shape (root w)
            /\ files_kept (fun q => resolve w file_path = Ok q)
                 (root w) (root w))
    by (split; [|split]; auto; now intros q a b c0).
  rewrite process_reviews_file_eq, process_reviews_body_eq.
  destruct (snd (json_load file_path w)) as [v|e] eqn:Hl; [|exact Hsame].
  destruct (json_load_stat _ _ Hl) as (wr & c & Hs).
  destruct v; try exact Hsame.
  destruct (augment_reviews file_path l) as [[reviews' warnings] outcome].
  destruct outcome as [n|e]; [|exact Hsame].
  pose proof (json_dump_frame (PList reviews') _ _ Hs) as H.
  destruct (json_dump (PList reviews') file_path w) as [[w2 o2] [u|e]];
    exact H.
Qed.

(** X9: a call of [process_reviews_file] leaves the working directory
    and the shape of the tree as they were (no file or directory is
    added, removed, renamed or moved, and no permission changes), and
    every file other than the one the path leads to keeps its content. *)
Theorem process_reviews_file_frame file_path w w' out b :
  process_reviews_file file_path w = (w', out, b) ->
  cwd w' = cwd w
  /\ shape (root w') = shape (root w)
  /\ forall q readable writable content,
       resolve w file_path <> Ok q ->
       get_node (root w) q = Some (File readable writable content) ->
       get_node (root w') q = Some (File readable writable content).
Proof.
  intros H. pose proof (process_reviews_file_keeps file_path w) as K.
  rewrite H in K. exact K.
Qed.

Lemma process_all_keeps (review_files : list pystr) n w :
  let w' := fst (fst (process_all review_files n w)) in
  cwd w' = cwd w
  /\ shape (root w') = shape (root w)
  /\ files_kept
       (fun q => exists file_path,
                   In file_path review_files /\ resolve w file_path = Ok q)
       (root w) (root w').
Proof.
  revert n w. induction review_files as [|file_path rest IH]; intros n w.
  - simpl. split; [|split]; auto. now intros q a b c.
  - cbn [process_all]. unfold bind.
    pose proof (process_reviews_file_keeps file_path w) as K.
    destruct (process_reviews_file file_path w) as [[w1 o1] [b|e]].
    + specialize (IH (if b then S n else n) w1).
      destruct (process_all rest _ w1) as [[w2 o2] r2].
      cbn [fst] in *. destruct K as (Kc & Ks & Kf), IH as (Ic & Is & If).
      split; [congruence|]. split; [congruence|].
      intros q a b0 c Hq Hg. apply If.
      * intros (fp & Hin & Hr). apply Hq. exists fp. split; [now right|].
        rewrite <- Hr. symmetry. apply resolve_same_kinds; auto.
        now apply shape_same_kinds.
      * apply Kf; auto. intros Hr. apply Hq. exists file_path.
        split; [now left | exact Hr].
    + cbn [fst] in *. destruct K as (Kc & Ks & Kf).
      split; [|split]; auto.
      intros q a b0 c Hq Hg. apply Kf; auto. intros Hr. apply Hq.
      exists file_path. split; [now left | exact Hr].
Qed.

Lemma main_keeps argv w :
  let w' := fst (fst (main argv w)) in
  cwd w' = cwd w
  /\ shape (root w') = shape (root w)
  /\ files_kept
       (fun q => exists file_path,
                   In file_path (find_reviews_files w (argv_directory argv))
                   /\ resolve w file_path = Ok q)
       (root w) (root w').
Proof.
  unfold main.
  destruct (find_reviews_files w (argv_directory argv)) as [|f fs] eqn:E.
  - simpl. split; [|split]; auto. now intros q a b c.
  - unfold bind, print, prints.
    pose proof (process_all_keeps (f :: fs) 0 w) as K.
    destruct (process_all (f :: fs) 0 w) as [[w2 o2] [m|e]]; exact K.
Qed.

(** X10: [main] leaves the working directory and the shape of the
    tree as they were, and every file that is not one of those found by
    [find_reviews_files] keeps its content. *)
Theorem main_frame argv w w' out r :
  main argv w = (w', out, r) ->
  cwd w' = cwd w
  /\ shape (root w') = shape (root w)
  /\ forall q readable writable content,
       (forall file_path,
          In file_path (find_reviews_files w (argv_directory argv)) ->
          resolve w file_path <> Ok q) ->
       get_node (root w) q = Some (File readable writable content) ->
       get_node (root w') q = Some (File readable writable content).
Proof.
  intros H. pose proof (main_keeps argv w) as K. rewrite H in K.
  cbn [fst] in K. destruct K as (Kc & Ks & Kf).
  split; [exact Kc|]. split; [exact Ks|].
  intros q a b c Hq Hg. apply Kf; auto.
  intros (fp & Hin & Hr). exact (Hq fp Hin Hr).
Qed.

(** ** What [find_reviews_files] looks at *)

Section SameShape.

Variables w w' : world.
Hypothesis Hshape : shape (root w') = shape (root w).
Hypothesis Hcwd : cwd w' = cwd w.

Lemma resolve_shape path : resolve w' path = resolve w path.
Proof. apply resolve_same_kinds; auto. now apply shape_same_kinds. Qed.

Lemma stat_shape path :
  match stat w path, stat w' path with
  | Ok n, Ok n' => shape n' = shape n
  | Raise e, Raise e' => e' = e
  | _, _ => False
  end.
Proof.
  unfold stat. rewrite resolve_shape.
  destruct (resolve w path) as [p|e]; simpl; auto.
  pose proof (get_node_shape (root w) p) as G.
  pose proof (get_node_shape (root w') p) as G'.
  rewrite Hshape, G in G'.
  destruct (get_node (root w) p), (get_node (root w') p);
    simpl in G'; try discriminate; auto.
  now injection G'.
Qed.

Lemma lexists_shape path : lexists w' path = lexists w path.
Proof.
  unfold lexists. pose proof (stat_shape path) as H.
  destruct (stat w path), (stat w' path); tauto.
Qed.

Lemma isdir_shape path : isdir w' path = isdir w path.
Proof.
  unfold isdir. pose proof (stat_shape path) as H.
  destruct (stat w path) as [[|]|], (stat w' path) as [[|]|];
    try tauto; discriminate.
Qed.

Lemma scandir_shape path : scandir w' path = scandir w path.
Proof.
  unfold scandir. pose proof (stat_shape path) as H.
  destruct (stat w path) as [[a b c|es]|e], (stat w' path) as [[a' b' c'|es']|e'];
    try tauto; try discriminate; simpl; [|congruence].
  simpl in H. injection H as H. f_equal.
  assert (K : forall l : list (pystr * node),
            map (fun e => (fst e, match snd e with Dir _ => true | _ => false end)) l
            = map (fun e => (fst e, match snd e with Dir _ => true | _ => false end))
                (map (fun e => (fst e, shape (snd e))) l)).
  { intros l. rewrite map_map. apply map_ext. intros [k [|]]; reflexivity. }
  now rewrite (K es), (K es'), H.
Qed.

Lemma glob1_shape dirname pattern dironly :
  glob1 w' dirname pattern dironly = glob1 w dirname pattern dironly.
Proof. unfold glob1, listdir. now rewrite scandir_shape. Qed.

Lemma glob0_shape dirname basename :
  glob0 w' dirname basename = glob0 w dirname basename.
Proof. unfold glob0. now rewrite isdir_shape, lexists_shape. Qed.

Lemma iglob_shape fuel pathname dironly :
  iglob fuel w' pathname dironly = iglob fuel w pathname dironly.
Proof.
  revert pathname dironly. induction fuel as [|fuel IH]; intros pathname dironly;
    [reflexivity|].
  cbn [iglob]. destruct (path_split pathname) as [dirname basename].
  rewrite isdir_shape, lexists_shape, glob1_shape, IH.
  destruct (negb (has_magic pathname)); [reflexivity|].
  destruct dirname; [reflexivity|].
  apply flat_map_ext. intros d.
  now rewrite glob1_shape, glob0_shape.
Qed.

Lemma find_reviews_files_shape directory :
  find_reviews_files w' directory = find_reviews_files w directory.
Proof. unfold find_reviews_files, glob. now rewrite iglob_shape. Qed.

End SameShape.

(** X11: the list that [find_reviews_files] returns depends on the
    working directory and on the shape of the tree only, not on what the
    files hold. *)
Theorem find_reviews_files_ignores_contents w w' directory :
  shape (root w') = shape (root w) ->
  cwd w' = cwd w ->
  find_reviews_files w' directory = find_reviews_files w directory.
Proof. intros Hs Hc. now apply find_reviews_files_shape. Qed.

(** X12: after a run of [main] the search finds the same files again,
    in any directory: a second run would go through the same list. *)
Theorem main_keeps_found_files argv w directory :
  find_reviews_files (fst (fst (main argv w))) directory
  = find_reviews_files w directory.
Proof. apply find_reviews_files_shape; apply main_keeps. Qed.

(** ** What [main] prints *)






(** ** What [find_reviews_files] returns, whatever the directory *)

(** X14: whatever the directory argument, glob characters included, the
    list is in ascending order and every path in it is the name of an
    entry of some directory, joined to that directory, and the name
    starts with [Reviews] and ends with [.json]. *)
Theorem find_reviews_files_sound w (directory : pystr) :
  Sorted str_le (find_reviews_files w directory)
  /\ forall path,
       In path (find_reviews_files w directory) ->
       exists dirname name,
         path = path_join dirname name
         /\ In name (listdir w dirname false)
         /\ is_reviews_name name = true.
Proof.
  split; [apply sorted_sorted|].
  intros path Hin. unfold find_reviews_files in Hin.
  apply (Permutation_in _ (sorted_perm _)) in Hin.
  unfold glob in Hin. cbn [iglob] in Hin.
  destruct (path_split_pattern directory) as (Hsnd & _ & _).
  destruct (path_split (path_join directory (lit "Reviews*.json")))
    as [d b] eqn:Es.
  simpl in Hsnd. subst b.
  rewrite has_magic_pattern in Hin. cbn [negb] in Hin.
  destruct d as [|c d].
  - rewrite glob1_reviews in Hin. apply filter_In in Hin as [Hl Hn].
    exists [], path. repeat split; auto.
    unfold path_join. now destruct (starts_with [slash] path).
  - apply in_flat_map in Hin as (dirname & _ & Hin).
    change (has_magic (lit "Reviews*.json")) with true in Hin.
    rewrite glob1_reviews in Hin.
    apply in_map_iff in Hin as (name & <- & Hin).
    apply filter_In in Hin as [Hl Hn].
    exists dirname, name. auto.
Qed.

(** ** UTF-8: decoding what was encoded *)

Ltac lia_div := zify; Z.to_euclidean_division_equations; lia.

Lemma to_N_byte_of (x : N) : (x < 256)%N -> Byte.to_N (byte_of x) = x.
Proof.
  intros H. unfold byte_of. destruct (Byte.of_N x) as [b|] eqn:E.
  - now apply Byte.to_of_N.
  - apply Byte.of_N_None_iff in E. lia.
Qed.

Ltac decide_test :=
  match goal with
  | |- context [(?a <? ?b)%N] =>
      first [ replace (a <? b)%N with true by (symmetry; apply N.ltb_lt; lia)
            | replace (a <? b)%N with false by (symmetry; apply N.ltb_ge; lia) ]
  | |- context [(?a <=? ?b)%N] =>
      first [ replace (a <=? b)%N with true by (symmetry; apply N.leb_le; lia)
            | replace (a <=? b)%N with false by (symmetry; apply N.leb_gt; lia) ]
  | |- context [(?a =? ?b)%N] =>
      first [ replace (a =? b)%N with true by (symmetry; apply N.eqb_eq; lia)
            | replace (a =? b)%N with false by (symmetry; apply N.eqb_neq; lia) ]
  end.

Ltac decide_tests :=
  repeat decide_test; cbn [andb];
  repeat (match goal with
          | |- context [(?a =? ?b)%N] => destruct (N.eqb_spec a b)
          end; repeat decide_test; cbn [andb]).

Ltac take_bytes H :=
  match type of H with
  | Ok ?l = Ok ?b => replace b with l by congruence; clear H
  end.

Lemma utf8_decode_2 (x0 x1 : N) (rest : list byte) :
  (194 <= x0 <= 223)%N -> (128 <= x1 <= 191)%N ->
  utf8_decode (byte_of x0 :: byte_of x1 :: rest)
  = rbind (utf8_decode rest)
      (fun s => Ok (((x0 - 192) * 64 + (x1 - 128))%N :: s)).
Proof.
  intros H0 H1. cbn [utf8_decode].
  rewrite !to_N_byte_of by lia. unfold is_cont. decide_tests. reflexivity.
Qed.

Lemma utf8_decode_3 (x0 x1 x2 : N) (rest : list byte) :
  (224 <= x0 <= 239)%N -> (128 <= x1 <= 191)%N -> (128 <= x2 <= 191)%N ->
  (x0 = 224 -> 160 <= x1)%N -> (x0 = 237 -> x1 <= 159)%N ->
  utf8_decode (byte_of x0 :: byte_of x1 :: byte_of x2 :: rest)
  = rbind (utf8_decode rest)
      (fun s => Ok (((x0 - 224) * 4096 + (x1 - 128) * 64 + (x2 - 128))%N :: s)).
Proof.
  intros H0 H1 H2 Ha Hb. cbn [utf8_decode].
  rewrite !to_N_byte_of by lia. unfold is_cont. decide_tests; reflexivity.
Qed.

Lemma utf8_decode_4 (x0 x1 x2 x3 : N) (rest : list byte) :
  (240 <= x0 <= 244)%N -> (128 <= x1 <= 191)%N -> (128 <= x2 <= 191)%N ->
  (128 <= x3 <= 191)%N ->
  (x0 = 240 -> 144 <= x1)%N -> (x0 = 244 -> x1 <= 143)%N ->
  utf8_decode (byte_of x0 :: byte_of x1 :: byte_of x2 :: byte_of x3 :: rest)
  = rbind (utf8_decode rest)
      (fun s => Ok (((x0 - 240) * 262144 + (x1 - 128) * 4096
                     + (x2 - 128) * 64 + (x3 - 128))%N :: s)).
Proof.
  intros H0 H1 H2 H3 Ha Hb. cbn [utf8_decode].
  rewrite !to_N_byte_of by lia. unfold is_cont. decide_tests; reflexivity.
Qed.

Lemma utf8_char_roundtrip (c : N) (b rest : list byte) :
  utf8_encode_char c = Ok b ->
  utf8_decode (b ++ rest) = rbind (utf8_decode rest) (fun s => Ok (c :: s)).
Proof.
  unfold utf8_encode_char.
  destruct (N.ltb_spec c 128) as [E1|E1].
  - intros H. take_bytes H. cbn [app utf8_decode].
    rewrite to_N_byte_of by lia. apply N.ltb_lt in E1. now rewrite E1.
  - destruct (N.ltb_spec c 2048) as [E2|E2].
    + intros H. take_bytes H. cbn [app].
      rewrite utf8_decode_2 by lia_div.
      replace ((192 + c / 64 - 192) * 64 + (128 + c mod 64 - 128))%N with c
        by lia_div.
      reflexivity.
    + destruct ((55296 <=? c) && (c <=? 57343))%N eqn:E3; [discriminate|].
      assert (H3 : (c < 55296 \/ 57343 < c)%N).
      { apply andb_false_iff in E3 as [E|E];
          [apply N.leb_gt in E | apply N.leb_gt in E]; lia. }
      clear E3.
      destruct (N.ltb_spec c 65536) as [E4|E4].
      * intros H. take_bytes H. cbn [app].
        rewrite utf8_decode_3 by lia_div.
        replace ((224 + c / 4096 - 224) * 4096
                 + (128 + (c / 64) mod 64 - 128) * 64
                 + (128 + c mod 64 - 128))%N with c by lia_div.
        reflexivity.
      * destruct (N.ltb_spec c 1114112) as [E5|E5]; [|discriminate].
        intros H. take_bytes H. cbn [app].
        rewrite utf8_decode_4 by lia_div.
        replace ((240 + c / 262144 - 240) * 262144
                 + (128 + (c / 4096) mod 64 - 128) * 4096
                 + (128 + (c / 64) mod 64 - 128) * 64
                 + (128 + c mod 64 - 128))%N with c by lia_div.
        reflexivity.
Qed.

Lemma utf8_roundtrip (s : pystr) (bs : list byte) :
  utf8_encode s = Ok bs -> utf8_decode bs = Ok s.
Proof.
  revert bs. induction s as [|c s IH]; intros bs; cbn [utf8_encode].
  - now intros [= <-].
  - destruct (utf8_encode_char c) as [b|e] eqn:Ec; cbn [rbind]; [|discriminate].
    destruct (utf8_encode s) as [bs'|e]; cbn [rbind]; [|discriminate].
    intros [= <-]. erewrite utf8_char_roundtrip by exact Ec.
    now rewrite (IH bs' eq_refl).
Qed.

(** ** Strings: [scanstring] on what [encode_basestring] wrote *)

Lemma hex4_control (c : N) :
  (c < 32)%N ->
  hex4 (ch "0") (ch "0") (hex_char (c / 16)) (hex_char (c mod 16)) = Some c.
Proof.
  intros H.
  assert (E : exists k, (k < 32)%nat /\ c = N.of_nat k)
    by (exists (N.to_nat c); split; lia).
  destruct E as (k & Hk & ->).
  do 32 (destruct k as [|k]; [vm_compute; reflexivity|]). lia.
Qed.

Lemma scanstring_escape (c : N) (t acc : pystr) :
  scanstring (escape_char c ++ t) acc = scanstring t (c :: acc).
Proof.
  unfold escape_char.
  destruct (N.eqb_spec c quote) as [->|H1]; [reflexivity|].
  destruct (N.eqb_spec c backslash) as [->|H2]; [reflexivity|].
  destruct (N.eqb_spec c 10) as [->|H3]; [reflexivity|].
  destruct (N.eqb_spec c 13) as [->|H4]; [reflexivity|].
  destruct (N.eqb_spec c 9) as [->|H5]; [reflexivity|].
  destruct (N.eqb_spec c 8) as [->|H6]; [reflexivity|].
  destruct (N.eqb_spec c 12) as [->|H7]; [reflexivity|].
  destruct (N.ltb_spec c 32) as [H8|H8].
  - pose proof (@hex4_control c H8) as Hh.
    remember (hex_char (c / 16)) as h1. remember (hex_char (c mod 16)) as h2.
    cbn [app scanstring].
    change (backslash =? quote)%N with false.
    change (backslash =? backslash)%N with true.
    change (ch "u" =? ch "u")%N with true. cbv iota.
    rewrite Hh.
    assert (Hs : is_high_surrogate c = false).
    { unfold is_high_surrogate. apply andb_false_iff. left.
      apply N.leb_gt. lia. }
    destruct t as [|b [|u s4]]; try reflexivity.
    now rewrite Hs.
  - cbn [app scanstring].
    apply N.eqb_neq in H1, H2. rewrite H1, H2.
    apply N.ltb_ge in H8. now rewrite H8.
Qed.

Lemma scanstring_encoded (s rest acc : pystr) :
  scanstring (flat_map escape_char s ++ quote :: rest) acc
  = Ok (rev acc ++ s, rest).
Proof.
  revert acc. induction s as [|c s IH]; intros acc.
  - cbn [flat_map app scanstring]. change (quote =? quote)%N with true.
    cbv iota. now rewrite app_nil_r.
  - cbn [flat_map]. rewrite <- app_assoc, scanstring_escape, IH.
    cbn [rev]. now rewrite <- app_assoc.
Qed.

(** ** Integers: [NUMBER_RE] and [int()] on what [int.__repr__] wrote *)

Lemma digits_of_digits (d : Decimal.uint) : forallb is_digit (digits_of d) = true.
Proof. induction d; simpl; auto. Qed.

Lemma digits_value_acc (d : Decimal.uint) (acc : positive) :
  fold_left (fun acc d => acc * 10 + Z.of_N (d - 48)) (digits_of d) (Z.pos acc)
  = Z.pos (Pos.of_uint_acc d acc).
Proof.
  revert acc. induction d; intros acc; [reflexivity|..];
    unfold digits_of in *;
    cbn [NilEmpty.string_of_uint lit list_ascii_of_string map fold_left
         Pos.of_uint_acc];
    rewrite <- IHd; f_equal; simpl (Z.of_N _); lia.
Qed.

Lemma digits_value_of_uint (d : Decimal.uint) :
  digits_value (digits_of d) = Z.of_N (Pos.of_uint d).
Proof.
  unfold digits_value.
  induction d; [reflexivity| |..];
    unfold digits_of in *;
    cbn [NilEmpty.string_of_uint lit list_ascii_of_string map fold_left
         Pos.of_uint];
    [exact IHd|..];
    simpl (0 * 10 + Z.of_N _);
    exact (digits_value_acc d _).
Qed.

Lemma unorm_head (d : Decimal.uint) :
  Decimal.unorm d = Decimal.zero
  \/ match Decimal.unorm d with
     | Decimal.Nil | Decimal.D0 _ => False
     | _ => True
     end.
Proof. induction d; simpl; auto. Qed.

Lemma to_uint_head (p : positive) :
  match Pos.to_uint p with
  | Decimal.Nil | Decimal.D0 _ => False
  | _ => True
  end.
Proof.
  pose proof (DecimalPos.Unsigned.to_of (Pos.to_uint p)) as H.
  rewrite DecimalPos.Unsigned.of_to in H. simpl in H.
  destruct (unorm_head (Pos.to_uint p)) as [E|E].
  - rewrite <- H in E. now apply DecimalPos.Unsigned.to_uint_nonzero in E.
  - now rewrite <- H in E.
Qed.

(** The decimal form of a positive number: digits, the first of which
    is not 0, whose value is the number. *)
Lemma digits_of_pos (p : positive) :
  exists c t,
    digits_of (Pos.to_uint p) = c :: t
    /\ is_digit c = true /\ c <> ch "0"
    /\ forallb is_digit t = true
    /\ digits_value (c :: t) = Z.pos p.
Proof.
  pose proof (to_uint_head p) as Hh.
  pose proof (digits_of_digits (Pos.to_uint p)) as Hd.
  pose proof (digits_value_of_uint (Pos.to_uint p)) as Hv.
  rewrite DecimalPos.Unsigned.of_to in Hv. simpl in Hv.
  destruct (Pos.to_uint p) as [|d|d|d|d|d|d|d|d|d|d]; try contradiction;
    (eexists; eexists; split; [reflexivity|];
     split; [reflexivity|]; split; [discriminate|]; split; [exact Hd|exact Hv]).
Qed.

Lemma int_repr_cases (n : Z) :
  (n = 0 /\ int_repr n = [ch "0"])
  \/ (exists c t, 0 < n /\ int_repr n = c :: t
        /\ is_digit c = true /\ c <> ch "0" /\ forallb is_digit t = true
        /\ digits_value (c :: t) = n)
  \/ (exists c t, n < 0 /\ int_repr n = ch "-" :: c :: t
        /\ is_digit c = true /\ c <> ch "0" /\ forallb is_digit t = true
        /\ digits_value (c :: t) = - n).
Proof.
  destruct n as [|p|p].
  - left. split; reflexivity.
  - right; left. destruct (digits_of_pos p) as (c & t & E & H).
    exists c, t. split; [lia|]. split; [|exact H].
    unfold int_repr. simpl. unfold NilZero.string_of_uint.
    unfold digits_of in E.
    destruct (Pos.to_uint p); try exact E. discriminate E.
  - right; right. destruct (digits_of_pos p) as (c & t & E & H).
    exists c, t. split; [lia|]. split; [|exact H].
    unfold int_repr. simpl. unfold NilZero.string_of_uint.
    unfold digits_of in E.
    destruct (Pos.to_uint p); [discriminate E|..];
      unfold lit in E |- *; cbn [list_ascii_of_string map]; f_equal; exact E.
Qed.

Lemma span_digits_app (ds rest : pystr) :
  forallb is_digit ds = true ->
  match rest with [] => true | c :: _ => negb (is_digit c) end = true ->
  span_digits (ds ++ rest) = (ds, rest).
Proof.
  intros Hd Hr. induction ds as [|c ds IH]; simpl in *.
  - destruct rest as [|c r]; [reflexivity|].
    simpl. apply negb_true_iff in Hr. now rewrite Hr.
  - apply andb_prop in Hd as [Hc Hd]. now rewrite Hc, IH.
Qed.

Lemma number_end_not_digit rest :
  number_end rest = true ->
  match rest with [] => true | c :: _ => negb (is_digit c) end = true.
Proof.
  destruct rest as [|c r]; [reflexivity|]. unfold number_end.
  rewrite !negb_orb. intros H. repeat apply andb_prop in H as [H _]. exact H.
Qed.

(** After the integer part, a rest that does not go on like a number
    gives neither a fraction nor an exponent. *)
Lemma match_number_int (digits rest : pystr) (sign : pystr) c t :
  digits = c :: t ->
  is_digit c = true ->
  (c = ch "0" -> t = []) ->
  forallb is_digit t = true ->
  number_end rest = true ->
  (sign = [] \/ sign = [ch "-"]) ->
  match_number (sign ++ digits ++ rest) = Some (sign ++ digits, [], [], rest).
Proof.
  intros -> Hc H0 Ht Hr Hs.
  assert (Htail :
    (let (frac, s2) :=
       match rest with
       | dot :: s' =>
           match span_digits s' with
           | (d1 :: d, r) =>
               if (dot =? ch ".")%N then (dot :: d1 :: d, r) else ([], rest)
           | ([], _) => ([], rest)
           end
       | [] => ([], rest)
       end in
     let (exp, s3) :=
       match s2 with
       | e :: s' =>
           if ((e =? ch "e") || (e =? ch "E"))%N then
             let (esign, s'') :=
               match s' with
               | c :: t =>
                   if ((c =? ch "-") || (c =? ch "+"))%N
                   then ([c], t) else ([], s')
               | [] => ([], s')
               end in
             match span_digits s'' with
             | (d1 :: d, r) => (e :: esign ++ d1 :: d, r)
             | ([], _) => ([], s2)
             end
           else ([], s2)
       | [] => ([], s2)
       end in
     Some (sign ++ c :: t, frac, exp, s3))
    = Some (sign ++ c :: t, [], [], rest)).
  { destruct rest as [|x r]; [reflexivity|].
    unfold number_end in Hr. rewrite !negb_orb in Hr.
    apply andb_prop in Hr as [Hr He2]. apply andb_prop in Hr as [Hr He1].
    apply andb_prop in Hr as [_ Hdot].
    apply negb_true_iff in Hdot, He1, He2.
    rewrite Hdot.
    destruct (span_digits r) as [[|d1 d] r0]; cbv iota; rewrite He1, He2;
      reflexivity. }
  assert (Hint :
    match c :: t ++ rest with
    | c0 :: s' =>
        if (c0 =? ch "0")%N then Some ([c0], s')
        else if is_digit c0 then
          let (d, r) := span_digits s' in Some (c0 :: d, r)
        else None
    | [] => None
    end = Some (c :: t, rest)).
  { destruct (N.eqb_spec c (ch "0")) as [E|E].
    - rewrite (H0 E). reflexivity.
    - rewrite Hc, span_digits_app; auto using number_end_not_digit. }
  unfold match_number.
  destruct Hs as [-> | ->].
  - cbn [app].
    assert (Hm : (c =? ch "-")%N = false).
    { apply N.eqb_neq. intros ->. discriminate Hc. }
    rewrite Hm. cbv zeta iota beta. 
    change ((c :: t) ++ rest) with (c :: t ++ rest).
    rewrite Hint. exact Htail.
  - cbn [app]. change (ch "-" =? ch "-")%N with true. cbv zeta iota beta.
    change ((c :: t) ++ rest) with (c :: t ++ rest).
    rewrite Hint. exact Htail.
Qed.

Lemma digit_not_minus c : is_digit c = true -> (c =? ch "-")%N = false.
Proof. intros H. apply N.eqb_neq. intros ->. discriminate H. Qed.

Lemma parse_int_repr (n : Z) :
  (List.length (int_digits n) <= int_max_str_digits)%nat ->
  parse_int (int_repr n) = Ok n.
Proof.
  unfold int_digits, parse_int.
  destruct (int_repr_cases n) as [[-> ->]|[(c & t & Hn & -> & Hc & _ & _ & Hv)
                                          |(c & t & Hn & -> & Hc & _ & _ & Hv)]].
  - reflexivity.
  - rewrite (digit_not_minus c Hc). intros Hl.
    apply Nat.ltb_ge in Hl. rewrite Hl. now rewrite Hv.
  - change (ch "-" =? ch "-")%N with true. cbv iota. intros Hl.
    apply Nat.ltb_ge in Hl. rewrite Hl. rewrite Hv. f_equal. lia.
Qed.

Lemma match_number_repr (n : Z) (rest : pystr) :
  number_end rest = true ->
  match_number (int_repr n ++ rest) = Some (int_repr n, [], [], rest).
Proof.
  intros Hr.
  destruct (int_repr_cases n) as [[-> ->]|[(c & t & Hn & -> & Hc & H0 & Ht & _)
                                          |(c & t & Hn & -> & Hc & H0 & Ht & _)]].
  - apply (@match_number_int [ch "0"] rest [] (ch "0") []); auto.
  - apply (@match_number_int (c :: t) rest [] c t); auto. congruence.
  - apply (@match_number_int (c :: t) rest [ch "-"] c t); auto. congruence.
Qed.

(** ** The text of lists and dictionaries *)

Lemma encode_scalar (v : pyval) (level : nat) text :
  scalar_repr v = Some text -> encode v level = text.
Proof.
  unfold encode.
  destruct v; cbn [scalar_repr iterencode]; try discriminate;
    try (intros [= <-]; cbn [List.concat]; now rewrite app_nil_r).
  destruct b; intros [= <-]; reflexivity.
Qed.

Lemma encode_items_eq (level : nat) (x : pyval) (l : list pyval) :
  encode (PList (x :: l)) level
  = encode_items level true (x :: l) ++ newline_indent level ++ lit "]".
Proof.
  unfold encode at 1. cbn [iterencode]. rewrite concat_app.
  apply (f_equal2 (@app N)); [|cbn [List.concat]; now rewrite app_nil_r].
  match goal with
  | |- List.concat (_ ++ ?F false l) = _ =>
      assert (HF : forall first l0,
                List.concat (F first l0) = encode_items level first l0)
  end.
  { intros first l0. revert first.
    induction l0 as [|v l0 IH]; intros first; [reflexivity|].
    rewrite concat_app, IH. cbn [encode_items].
    destruct (scalar_repr v) as [text|] eqn:E.
    - rewrite (@encode_scalar v (S level) text E). cbn [List.concat].
      rewrite app_nil_r. destruct first; cbn [app]; now rewrite <- app_assoc.
    - cbn [List.concat]. fold (encode v (S level)).
      destruct first; cbn [app]; now rewrite <- app_assoc. }
  rewrite concat_app, HF. cbn [encode_items].
  destruct (scalar_repr x) as [text|] eqn:E.
  - rewrite (@encode_scalar x (S level) text E). cbn [List.concat].
    rewrite app_nil_r. cbn [app]. now rewrite <- app_assoc.
  - cbn [List.concat]. fold (encode x (S level)).
    cbn [app]. now rewrite <- app_assoc.
Qed.

Lemma concat_scalar_or_chunks (v : pyval) (level : nat) :
  List.concat match scalar_repr v with
              | Some text => [text]
              | None => iterencode v level
              end
  = encode v level.
Proof.
  destruct (scalar_repr v) as [text|] eqn:E; [|reflexivity].
  rewrite (@encode_scalar v level text E). cbn [List.concat].
  now rewrite app_nil_r.
Qed.

Lemma encode_members_eq (level : nat) kv (d : pydict) :
  encode (PDict (kv :: d)) level
  = ch "{" :: newline_indent (S level)
    ++ encode_members level true (kv :: d) ++ newline_indent level ++ lit "}".
Proof.
  unfold encode at 1. cbn [iterencode]. destruct kv as [key value].
  cbn [List.concat]. rewrite concat_app.
  change (List.concat [newline_indent level; lit "}"])
    with (newline_indent level ++ lit "}" ++ []).
  rewrite app_nil_r. change (lit "{") with [ch "{"]. cbn [app].
  do 2 f_equal. apply (f_equal2 (@app N)); [|reflexivity].
  match goal with
  | |- List.concat (_ :: _ :: _ ++ ?F false d) = _ =>
      assert (HF : forall first d0,
                List.concat (F first d0) = encode_members level first d0)
  end.
  { intros first d0. revert first.
    induction d0 as [|[k v] d0 IH]; intros first; [reflexivity|].
    rewrite concat_app. cbn [List.concat].
    rewrite concat_app, IH, concat_scalar_or_chunks. cbn [encode_members].
    destruct first; cbn [List.concat app]; rewrite ?app_nil_r;
      rewrite <- ?app_assoc; reflexivity. }
  cbn [List.concat].
  rewrite concat_app, HF, concat_scalar_or_chunks. cbn [encode_members].
  cbn [app]. now rewrite <- ?app_assoc.
Qed.

(** ** The decoder on the encoder's text *)

Lemma encode_head (v : pyval) (level : nat) :
  plain v = true ->
  exists c t, encode v level = c :: t /\ value_start c = true.
Proof.
  destruct v as [ | b | n | f | s | l | d ]; cbn [plain]; intros Hp.
  - eexists; eexists; split; reflexivity.
  - destruct b; eexists; eexists; split; reflexivity.
  - unfold encode. cbn [iterencode scalar_repr List.concat].
    rewrite app_nil_r.
    destruct (int_repr_cases n)
      as [[_ ->]|[(c & t & _ & -> & Hc & _)|(c & t & _ & -> & _)]].
    + eexists; eexists; split; reflexivity.
    + exists c, t. split; [reflexivity|]. unfold value_start. rewrite Hc.
      now rewrite !orb_true_r.
    + eexists; eexists; split; reflexivity.
  - discriminate.
  - eexists; eexists; split; reflexivity.
  - destruct l as [|x l]; [eexists; eexists; split; reflexivity|].
    rewrite encode_items_eq. eexists; eexists; split; reflexivity.
  - destruct d as [|kv d]; [eexists; eexists; split; reflexivity|].
    rewrite encode_members_eq. eexists; eexists; split; reflexivity.
Qed.

Lemma value_start_cases (c : N) :
  value_start c = true ->
  json_ws c = false /\ (c =? ch "]")%N = false /\ (c =? ch "}")%N = false
  /\ (c =? 65279)%N = false.
Proof.
  unfold value_start, is_digit. rewrite !orb_true_iff, andb_true_iff.
  intros H.
  repeat match type of H with
    | _ \/ _ => destruct H as [H|H]
    end;
    try (apply N.eqb_eq in H; subst c; repeat split; reflexivity).
  destruct H as [H1 H2]. apply N.leb_le in H1, H2.
  unfold json_ws. repeat split;
    rewrite ?orb_false_iff; repeat split; apply N.eqb_neq;
    change (ch "]") with 93%N; change (ch "}") with 125%N; lia.
Qed.

Lemma skip_ws_indent (k : nat) (c : N) (r : pystr) :
  json_ws c = false -> skip_ws (newline_indent k ++ c :: r) = c :: r.
Proof.
  intros H. unfold newline_indent, indent_str. cbn [app skip_ws].
  change (json_ws 10) with true. cbv iota.
  induction (2 * k)%nat as [|m IH]; cbn [repeat app skip_ws].
  - now rewrite H.
  - change (json_ws 32) with true. exact IH.
Qed.

Lemma dict_set_fresh (d : pydict) k v :
  existsb (str_eqb k) (map fst d) = false -> dict_set d k v = d ++ [(k, v)].
Proof.
  induction d as [|[k' v'] d IH]; cbn [map fst existsb dict_set app]; auto.
  rewrite orb_false_iff. intros [H1 H2].
  assert (E : str_eqb k' k = false).
  { apply str_eqb_neq. apply str_eqb_neq in H1. congruence. }
  now rewrite E, IH.
Qed.

Lemma unique_app_fresh (a : list pystr) k b :
  unique (a ++ k :: b) = true -> existsb (str_eqb k) a = false.
Proof.
  induction a as [|x a IH]; cbn [app unique existsb]; auto.
  rewrite andb_true_iff, negb_true_iff, existsb_app.
  cbn [existsb]. rewrite !orb_false_iff. intros [(_ & Hx & _) Hu].
  split; [|auto].
  apply str_eqb_neq. apply str_eqb_neq in Hx. congruence.
Qed.

Lemma scan_once_number (fuel : nat) (c : N) (t : pystr) :
  is_digit c = true \/ c = ch "-" ->
  match_number (c :: t) <> None ->
  scan_once (S fuel) (c :: t)
  = match match_number (c :: t) with
    | Some (integer, frac, exp, rest) =>
        match frac, exp with
        | [], [] => n <- parse_int integer ;; Ok (PInt n, rest)
        | _, _ =>
            Ok (PFloat (float_of_literal (integer ++ frac ++ exp)), rest)
        end
    | None => Raise JSONDecodeError
    end.
Proof.
  intros Hc Hm.
  assert (Ht : (c =? quote)%N = false /\ (c =? ch "{")%N = false
               /\ (c =? ch "[")%N = false /\ (ch "n" =? c)%N = false
               /\ (ch "t" =? c)%N = false /\ (ch "f" =? c)%N = false).
  { destruct Hc as [Hc | ->]; [|repeat split; reflexivity].
    unfold is_digit in Hc. apply andb_prop in Hc as [H1 H2].
    apply N.leb_le in H1, H2.
    repeat split; apply N.eqb_neq; unfold quote;
      change (ch "{") with 123%N; change (ch "[") with 91%N;
      change (ch "n") with 110%N; change (ch "t") with 116%N;
      change (ch "f") with 102%N; lia. }
  destruct Ht as (H1 & H2 & H3 & H4 & H5 & H6).
  cbn [scan_once]. rewrite H1, H2, H3.
  cbn [starts_with lit list_ascii_of_string map].
  change (N_of_ascii "n") with (ch "n"). change (N_of_ascii "t") with (ch "t").
  change (N_of_ascii "f") with (ch "f").
  rewrite H4, H5, H6. cbn [andb].
  destruct (match_number (c :: t)) as [[[[i fr] e] r]|]; [reflexivity|].
  congruence.
Qed.

Lemma reads_bind {A B} (r : result A) (a : A) (k : A -> result B) (b : B) :
  reads r a -> reads (k a) b -> reads (rbind r k) b.
Proof. intros [-> | ->] H; [exact H | now right]. Qed.

Lemma encode_skip_ws (v : pyval) (level : nat) (r : pystr) :
  plain v = true -> skip_ws (encode v level ++ r) = encode v level ++ r.
Proof.
  intros Hp. destruct (encode_head v level Hp) as (c & t & -> & Hc).
  apply value_start_cases in Hc as (Hw & _). cbn [app skip_ws].
  now rewrite Hw.
Qed.

Lemma encode_skip_indent (k : nat) (v : pyval) (level : nat) (r : pystr) :
  plain v = true ->
  skip_ws (newline_indent k ++ encode v level ++ r) = encode v level ++ r.
Proof.
  intros Hp. destruct (encode_head v level Hp) as (c & t & -> & Hc).
  apply value_start_cases in Hc as (Hw & _). cbn [app].
  now apply skip_ws_indent.
Qed.

Section ReadBack.

Variable P : pyval -> Prop.
Hypothesis P_def :
  forall v, P v <->
    (plain v = true ->
     forall fuel level rest,
       number_end rest = true ->
       reads (scan_once fuel (encode v level ++ rest)) (v, rest)).

Lemma parse_items_encoded (level : nat) (rest : pystr) (l : list pyval) :
  Forall P l -> forallb plain l = true ->
  forall x values fuel,
    P x -> plain x = true ->
    reads (parse_items fuel values
             (encode x (S level) ++ encode_items level false l
              ++ newline_indent level ++ lit "]" ++ rest))
          (PList (rev values ++ x :: l), rest).
Proof.
  induction 1 as [|y l Hy Hl IH]; intros Hpl x values fuel Hx Hpx;
    (destruct fuel as [|fuel]; [now right|]); cbn [parse_items].
  - cbn [encode_items app].
    change (lit "]" ++ rest) with (ch "]" :: rest).
    eapply reads_bind.
    + apply P_def; [exact Hx | exact Hpx | reflexivity].
    + cbv beta iota. rewrite skip_ws_indent by reflexivity.
      change (ch "]" =? ch "]")%N with true. cbv iota. left.
      reflexivity.
  - cbn [forallb] in Hpl. apply andb_prop in Hpl as [Hpy Hpl].
    cbn [encode_items].
    eapply reads_bind.
    + apply P_def; [exact Hx | exact Hpx | reflexivity].
    + cbv beta iota. cbn [app skip_ws].
      change (json_ws (ch ",")) with false. cbv iota.
      change (ch "," =? ch "]")%N with false.
      change (ch "," =? ch ",")%N with true. cbv iota.
      rewrite <- !app_assoc, encode_skip_indent by exact Hpy.
      specialize (IH Hpl y (x :: values) fuel Hy Hpy).
      cbn [rev] in IH. rewrite <- app_assoc in IH. exact IH.
Qed.

Lemma parse_members_encoded (level : nat) (rest : pystr) (d : pydict) :
  Forall (fun kv => P (snd kv)) d ->
  forallb (fun kv => plain (snd kv)) d = true ->
  forall key value pairs fuel,
    P value -> plain value = true ->
    unique (map fst pairs ++ key :: map fst d) = true ->
    reads (parse_members fuel pairs
             (encode_basestring key ++ lit ": " ++ encode value (S level)
              ++ encode_members level false d
              ++ newline_indent level ++ lit "}" ++ rest))
          (PDict (pairs ++ (key, value) :: d), rest).
Proof.
  induction 1 as [|[k2 v2] d Hy Hd IH];
    intros Hpl key value pairs fuel Hx Hpx Hu;
    (destruct fuel as [|fuel]; [now right|]); cbn [parse_members];
    unfold encode_basestring; cbn [app];
    change (quote =? quote)%N with true; cbv iota;
    rewrite <- app_assoc; cbn [app]; rewrite scanstring_encoded;
    cbn [rbind rev app];
    change (lit ": " ++ ?x) with (ch ":" :: 32%N :: x);
    cbn [skip_ws];
    change (json_ws (ch ":")) with false; cbv iota;
    change (ch ":" =? ch ":")%N with true; cbv iota;
    cbn [skip_ws];
    change (json_ws 32) with true; cbv iota;
    rewrite encode_skip_ws by exact Hpx;
    pose proof (@dict_set_fresh pairs key value
                  (@unique_app_fresh _ key _ Hu)) as Hs.
  - cbn [encode_members app].
    change (lit "}" ++ rest) with (ch "}" :: rest).
    eapply reads_bind.
    + apply P_def; [exact Hx | exact Hpx | reflexivity].
    + cbv beta iota. rewrite skip_ws_indent by reflexivity.
      change (ch "}" =? ch "}")%N with true. cbv iota. left.
      now rewrite Hs.
  - cbn [forallb snd] in Hpl. apply andb_prop in Hpl as [Hpy Hpl].
    cbn [encode_members].
    eapply reads_bind.
    + apply P_def; [exact Hx | exact Hpx | reflexivity].
    + cbv beta iota. cbn [app skip_ws].
      change (json_ws (ch ",")) with false. cbv iota.
      change (ch "," =? ch "}")%N with false.
      change (ch "," =? ch ",")%N with true. cbv iota.
      rewrite <- !app_assoc, Hs.
      assert (Hq : skip_ws (newline_indent (S level) ++ encode_basestring k2
                            ++ lit ": " ++ encode v2 (S level)
                            ++ encode_members level false d
                            ++ newline_indent level ++ lit "}" ++ rest)
                   = encode_basestring k2 ++ lit ": " ++ encode v2 (S level)
                     ++ encode_members level false d
                     ++ newline_indent level ++ lit "}" ++ rest)
        by (apply skip_ws_indent; reflexivity).
      rewrite Hq.
      specialize (IH Hpl k2 v2 (pairs ++ [(key, value)]) fuel Hy Hpy).
      rewrite <- app_assoc in IH. cbn [app] in IH. apply IH.
      cbn [map fst] in Hu |- *. rewrite map_app, <- app_assoc. exact Hu.
Qed.

End ReadBack.

Lemma scan_once_list (fuel : nat) (s : pystr) :
  scan_once (S fuel) (ch "[" :: s)
  = match skip_ws s with
    | c :: s2 =>
        if (c =? ch "]")%N then Ok (PList [], s2)
        else parse_items fuel [] (c :: s2)
    | [] => Raise JSONDecodeError
    end.
Proof. reflexivity. Qed.

Lemma scan_once_dict (fuel : nat) (s : pystr) :
  scan_once (S fuel) (ch "{" :: s)
  = match skip_ws s with
    | c :: s2 =>
        if (c =? ch "}")%N then Ok (PDict [], s2)
        else parse_members fuel [] (c :: s2)
    | [] => Raise JSONDecodeError
    end.
Proof. reflexivity. Qed.

Lemma reads_back_def (v : pyval) :
  reads_back v <->
  (plain v = true ->
   forall fuel level rest,
     number_end rest = true ->
     reads (scan_once fuel (encode v level ++ rest)) (v, rest)).
Proof. reflexivity. Qed.

Lemma scan_once_encoded (v : pyval) : reads_back v.
Proof.
  induction v as [ | b | n | f | s | l IH | d IH ] using pyval_nested_ind;
    intros Hp fuel level rest Hr;
    (destruct fuel as [|fuel]; [now right|]).
  - left. reflexivity.
  - left. destruct b; reflexivity.
  - left. cbn [plain] in Hp. apply Nat.leb_le in Hp.
    unfold encode. cbn [iterencode scalar_repr List.concat].
    rewrite app_nil_r.
    pose proof (@match_number_repr n rest Hr) as Hm.
    assert (Hc : exists c t, int_repr n ++ rest = c :: t
                             /\ (is_digit c = true \/ c = ch "-")).
    { destruct (int_repr_cases n)
        as [[_ ->]|[(c & t & _ & -> & Hc & _)|(c & t & _ & -> & _)]];
        eexists; eexists; (split; [reflexivity|]); auto. }
    destruct Hc as (c & t & E & Hc). rewrite E in *.
    rewrite scan_once_number; [|exact Hc|congruence].
    rewrite Hm. now rewrite parse_int_repr.
  - discriminate.
  - left. unfold encode. cbn [iterencode scalar_repr List.concat].
    unfold encode_basestring. cbn [app scan_once].
    change (quote =? quote)%N with true. cbv iota.
    rewrite app_nil_r, <- app_assoc. cbn [app].
    now rewrite scanstring_encoded.
  - destruct l as [|x l]; [left; reflexivity|].
    cbn [plain forallb] in Hp. apply andb_prop in Hp as [Hpx Hpl].
    inversion IH as [|? ? Hx Hl]; subst.
    rewrite encode_items_eq. cbn [encode_items app].
    rewrite <- !app_assoc, scan_once_list, encode_skip_indent by exact Hpx.
    destruct (encode_head x (S level) Hpx) as (c & t & E & Hc).
    apply value_start_cases in Hc as (_ & Hc & _).
    pose proof (@parse_items_encoded reads_back reads_back_def level rest l
                  Hl Hpl x [] fuel Hx Hpx) as H.
    rewrite E in *. cbn [app] in *. rewrite Hc. exact H.
  - destruct d as [|[key value] d]; [left; reflexivity|].
    cbn [plain forallb map fst snd] in Hp.
    apply andb_prop in Hp as [Hu Hp]. apply andb_prop in Hp as [Hpx Hpl].
    inversion IH as [|? ? Hx Hl]; subst. cbn [snd] in Hx.
    rewrite encode_members_eq. cbn [encode_members app].
    rewrite <- !app_assoc, scan_once_dict.
    pose proof (@parse_members_encoded reads_back reads_back_def level rest d
                  Hl Hpl key value [] fuel Hx Hpx Hu) as H.
    unfold encode_basestring in *. cbn [app] in *.
    rewrite skip_ws_indent by reflexivity.
    change (quote =? ch "}")%N with false. cbv iota. exact H.
Qed.

(** [json.loads] gives back a plain value from its encoded text. *)
Lemma json_loads_encoded (v : pyval) :
  plain v = true -> json_loads (encode v 0) = Ok v.
Proof.
  intros Hp. unfold json_loads.
  destruct (encode_head v 0 Hp) as (c & t & E & Hc).
  pose proof (value_start_cases c Hc) as (Hw & _ & _ & Hbom).
  assert (Hb : starts_with [65279%N] (encode v 0) = false).
  { rewrite E. cbn [starts_with]. rewrite N.eqb_sym, Hbom. reflexivity. }
  rewrite Hb.
  assert (Hs : skip_ws (encode v 0) = encode v 0).
  { rewrite E. cbn [skip_ws]. now rewrite Hw. }
  rewrite Hs.
  destruct (scan_once_fuel (2 * List.length (encode v 0) + 2)%nat) as (Hf & _).
  specialize (Hf (encode v 0) ltac:(lia)).
  pose proof (@scan_once_encoded v Hp (2 * List.length (encode v 0) + 2)%nat
                0%nat [] eq_refl) as H.
  rewrite app_nil_r in H. destruct H as [H|H]; rewrite H in *.
  - reflexivity.
  - congruence.
Qed.

(** ** Newlines: the encoder writes no carriage return *)

Lemma universal_newlines_no_cr (s : pystr) :
  no_cr s = true -> universal_newlines s = s.
Proof.
  unfold no_cr. induction s as [|c s IH]; cbn [forallb universal_newlines]; auto.
  intros H. apply andb_prop in H as [Hc Hs]. apply negb_true_iff in Hc.
  rewrite Hc. now rewrite IH.
Qed.

Lemma no_cr_app (a b : pystr) : no_cr (a ++ b) = no_cr a && no_cr b.
Proof. apply forallb_app. Qed.

Lemma hex_char_not_cr (d : N) : negb (hex_char d =? 13)%N = true.
Proof.
  apply negb_true_iff, N.eqb_neq. unfold hex_char.
  destruct (d <? 10)%N; lia.
Qed.

Lemma no_cr_escape (c : N) : no_cr (escape_char c) = true.
Proof.
  unfold escape_char.
  repeat match goal with
    | |- context [if (c =? ?k)%N then _ else _] =>
        destruct (N.eqb_spec c k); [reflexivity|]
    end.
  destruct (N.ltb_spec c 32).
  - unfold no_cr. cbn [forallb]. rewrite !hex_char_not_cr. reflexivity.
  - unfold no_cr. cbn [forallb]. rewrite andb_true_r.
    apply negb_true_iff, N.eqb_neq. assumption.
Qed.

Lemma no_cr_basestring (s : pystr) : no_cr (encode_basestring s) = true.
Proof.
  unfold encode_basestring.
  change (quote :: flat_map escape_char s ++ [quote])
    with ([quote] ++ flat_map escape_char s ++ [quote]).
  rewrite !no_cr_app. change (no_cr [quote]) with true.
  rewrite andb_true_r. cbn [andb].
  induction s as [|c s IH]; [reflexivity|].
  cbn [flat_map]. now rewrite no_cr_app, no_cr_escape, IH.
Qed.

Lemma no_cr_digits (t : pystr) : forallb is_digit t = true -> no_cr t = true.
Proof.
  unfold no_cr. induction t as [|c t IH]; cbn [forallb]; auto.
  intros H. apply andb_prop in H as [Hc Ht]. rewrite (IH Ht), andb_true_r.
  apply negb_true_iff, N.eqb_neq. intros ->. discriminate Hc.
Qed.

Lemma no_cr_int_repr (n : Z) : no_cr (int_repr n) = true.
Proof.
  destruct (int_repr_cases n)
    as [[_ ->]|[(c & t & _ & -> & Hc & _ & Ht & _)
               |(c & t & _ & -> & Hc & _ & Ht & _)]].
  - reflexivity.
  - apply no_cr_digits. cbn [forallb]. now rewrite Hc, Ht.
  - change (ch "-" :: c :: t) with ([ch "-"] ++ c :: t).
    rewrite no_cr_app. change (no_cr [ch "-"]) with true. cbn [andb].
    apply no_cr_digits. cbn [forallb]. now rewrite Hc, Ht.
Qed.

Lemma no_cr_indent (k : nat) : no_cr (newline_indent k) = true.
Proof.
  unfold newline_indent, indent_str, no_cr. cbn [forallb].
  change (negb (10 =? 13)%N) with true. cbn [andb].
  induction (2 * k)%nat; cbn [repeat forallb]; auto.
Qed.

Lemma no_cr_items (level : nat) (first : bool) (l : list pyval) :
  Forall (fun v => forall level, no_cr (encode v level) = true) l ->
  no_cr (encode_items level first l) = true.
Proof.
  intros H. revert first.
  induction H as [|y l Hy Hl IH]; intros first; [reflexivity|].
  cbn [encode_items].
  change ((if first then ch "[" else ch ",") :: ?x)
    with ([if first then ch "[" else ch ","] ++ x).
  rewrite !no_cr_app, no_cr_indent, Hy, IH.
  destruct first; reflexivity.
Qed.

Lemma no_cr_members (level : nat) (first : bool) (d : pydict) :
  Forall (fun kv => forall level, no_cr (encode (snd kv) level) = true) d ->
  no_cr (encode_members level first d) = true.
Proof.
  intros H. revert first.
  induction H as [|[k y] d Hy Hl IH]; intros first; [reflexivity|].
  cbn [encode_members]. cbn [snd] in Hy.
  rewrite !no_cr_app, no_cr_basestring, Hy, IH.
  change (no_cr (lit ": ")) with true.
  destruct first; [reflexivity|].
  change (ch "," :: ?x) with ([ch ","] ++ x).
  now rewrite no_cr_app, no_cr_indent.
Qed.

Lemma no_cr_encode (v : pyval) :
  plain v = true -> forall level, no_cr (encode v level) = true.
Proof.
  induction v as [ | b | n | f | s | l IH | d IH ] using pyval_nested_ind;
    intros Hp level.
  - reflexivity.
  - destruct b; reflexivity.
  - unfold encode. cbn [iterencode scalar_repr List.concat].
    rewrite app_nil_r. apply no_cr_int_repr.
  - discriminate.
  - unfold encode. cbn [iterencode scalar_repr List.concat].
    rewrite app_nil_r. apply no_cr_basestring.
  - destruct l as [|x l]; [reflexivity|].
    rewrite encode_items_eq, !no_cr_app, no_cr_indent.
    change (no_cr (lit "]")) with true. rewrite !andb_true_r.
    apply no_cr_items. cbn [plain] in Hp.
    rewrite Forall_forall in *. rewrite forallb_forall in Hp.
    intros v Hin. apply IH; auto.
  - destruct d as [|kv d]; [reflexivity|].
    rewrite encode_members_eq.
    change (ch "{" :: ?x) with ([ch "{"] ++ x).
    rewrite !no_cr_app, !no_cr_indent.
    change (no_cr (lit "}")) with true. change (no_cr [ch "{"]) with true.
    rewrite !andb_true_r. cbn [andb].
    apply no_cr_members. cbn [plain] in Hp. apply andb_prop in Hp as [_ Hp].
    rewrite Forall_forall in *. rewrite forallb_forall in Hp.
    intros v Hin. apply IH; auto.
Qed.

(** ** Writing a file again with the bytes it holds *)

Lemma update_entry_same entries x (f : node -> node) fresh child :
  lookup_entry entries x = Some child -> f child = child ->
  update_entry entries x f fresh = entries.
Proof.
  intros Hl Hf. induction entries as [|[k n] rest IH]; [discriminate|].
  simpl in *. destruct (str_eqb k x).
  - injection Hl as ->. now rewrite Hf.
  - now rewrite IH.
Qed.

Lemma set_node_same r p n : get_node r p = Some n -> set_node r p n = r.
Proof.
  revert r. induction p as [|x p IH]; intros r; simpl.
  - now intros [= ->].
  - destruct r as [|entries]; [discriminate|].
    destruct (lookup_entry entries x) as [child|] eqn:E; [|discriminate].
    intros H. f_equal. eapply update_entry_same; [exact E | now apply IH].
Qed.

Lemma update_entry_twice entries x (f g : node -> node) fr fr' child :
  lookup_entry entries x = Some child -> g (f child) = g child ->
  update_entry (update_entry entries x f fr) x g fr'
  = update_entry entries x g fr'.
Proof.
  intros Hl Hf. induction entries as [|[k n] rest IH]; [discriminate|].
  simpl in *. destruct (str_eqb k x) eqn:E; simpl; rewrite E.
  - injection Hl as ->. now rewrite Hf.
  - now rewrite IH.
Qed.

Lemma set_node_set r p a b old :
  get_node r p = Some old ->
  set_node (set_node r p a) p b = set_node r p b.
Proof.
  revert r old. induction p as [|x p IH]; intros r old; simpl; auto.
  destruct r as [|entries]; [discriminate|].
  destruct (lookup_entry entries x) as [child|] eqn:E; [|discriminate].
  intros H. simpl. f_equal.
  eapply update_entry_twice; [exact E | eapply IH; exact H].
Qed.

Lemma utf8_encode_app_inv a b bs :
  utf8_encode (a ++ b) = Ok bs ->
  exists x y, utf8_encode a = Ok x /\ utf8_encode b = Ok y /\ bs = x ++ y.
Proof.
  revert bs. induction a as [|c a IH]; intros bs; cbn [app utf8_encode].
  - intros H. exists [], bs. auto.
  - destruct (utf8_encode_char c) as [bc|]; cbn [rbind]; [|discriminate].
    destruct (utf8_encode (a ++ b)) as [r|] eqn:E; cbn [rbind]; [|discriminate].
    intros [= <-]. destruct (IH r eq_refl) as (x & y & -> & Hy & ->).
    cbn [rbind]. exists (bc ++ x), y. split; [reflexivity|].
    split; [exact Hy | now rewrite app_assoc].
Qed.

Lemma write_chunks_ok (f : list pystr) (chunks : list pystr) :
  forall w r wr c bs,
    get_node (root w) f = Some (File r wr c) ->
    utf8_encode (List.concat chunks) = Ok bs ->
    write_chunks f chunks w
    = (World (set_node (root w) f (File r wr (c ++ bs))) (cwd w), [], Ok tt).
Proof.
  induction chunks as [|chunk rest IH]; intros w r wr c bs Hf.
  - cbn [List.concat utf8_encode write_chunks]. intros [= <-].
    rewrite app_nil_r, set_node_same by exact Hf. now destruct w.
  - cbn [List.concat write_chunks]. intros He.
    apply utf8_encode_app_inv in He as (x & y & Hx & Hy & ->).
    unfold bind, write at 1. rewrite Hx, Hf.
    set (w1 := World (set_node (root w) f (File r wr (c ++ x))) (cwd w)).
    assert (Hf1 : get_node (root w1) f = Some (File r wr (c ++ x)))
      by (simpl; eapply get_set_same; eauto).
    rewrite (IH w1 r wr (c ++ x) y Hf1 Hy). simpl.
    erewrite set_node_set by exact Hf. now rewrite app_assoc.
Qed.

Lemma json_dump_same (data : pyval) file_path w r bytes :
  stat w file_path = Ok (File r true bytes) ->
  utf8_encode (encode data 0) = Ok bytes ->
  json_dump data file_path w = (w, [], Ok tt).
Proof.
  intros Hs He. apply stat_file in Hs as (p & Hp & Hg).
  unfold json_dump, bind, open_write. rewrite Hp, Hg.
  set (w1 := World (set_node (root w) p (File r true [])) (cwd w)).
  assert (Hf1 : get_node (root w1) p = Some (File r true []))
    by (simpl; eapply get_set_same; eauto).
  rewrite (@write_chunks_ok p (iterencode data 0) w1 r true [] bytes Hf1 He).
  simpl.
  erewrite set_node_set by exact Hg.
  rewrite set_node_same by exact Hg. now destruct w.
Qed.

Lemma json_load_written file_path w wr bytes (v : pyval) :
  stat w file_path = Ok (File true wr bytes) ->
  utf8_encode (encode v 0) = Ok bytes ->
  plain v = true ->
  snd (json_load file_path w) = Ok v.
Proof.
  intros Hs He Hp. unfold json_load, bind, read_text, lift. rewrite Hs.
  cbn [rbind]. erewrite utf8_roundtrip by exact He. cbn [rbind].
  rewrite universal_newlines_no_cr by (apply no_cr_encode; exact Hp).
  cbn [snd fst]. rewrite json_loads_encoded by exact Hp. reflexivity.
Qed.

Lemma json_dump_writable (data : pyval) file_path w r wr c w' out :
  stat w file_path = Ok (File r wr c) ->
  json_dump data file_path w = (w', out, Ok tt) ->
  wr = true.
Proof.
  intros Hs. apply stat_file in Hs as (p & Hp & Hg).
  unfold json_dump, bind, open_write. rewrite Hp, Hg.
  destruct wr; [reflexivity | discriminate].
Qed.


(** X17: a successful run can be repeated: when the data written holds
    no float (and the integers are within the interpreter's limit of
    digits, the keys not repeated), a second call of
    [process_reviews_file] on the file leaves the file system exactly as
    the first call left it, prints the same lines and returns [True]. *)
Theorem process_reviews_file_repeatable file_path w w1 out
    (reviews : list pyval) :
  snd (json_load file_path w) = Ok (PList reviews) ->
  plain (PList (fst (fst (augment_reviews file_path reviews)))) = true ->
  process_reviews_file file_path w = (w1, out, Ok true) ->
  process_reviews_file file_path w1 = (w1, out, Ok true).
Proof.
  intros Hl Hp.
  rewrite !process_reviews_file_eq, !process_reviews_body_eq, Hl.
  destruct (json_load_stat _ _ Hl) as (wr & c & Hs).
  pose proof (augment_loop_idem file_path reviews 0) as Hi.
  unfold augment_reviews in *.
  destruct (augment_loop file_path reviews 0)
    as [[reviews' warnings] outcome] eqn:Ea.
  cbn [fst] in Hp, Hi.
  destruct outcome as [n|e]; [|discriminate].
  destruct (json_dump (PList reviews') file_path w) as [[w2 o2] [[]|e]] eqn:Ed;
    [|discriminate].
  intros [= <- <-].
  destruct (json_dump_existing _ _ _ Hs Ed) as (_ & bytes & He & Hs').
  pose proof (json_dump_writable _ _ _ Hs Ed) as ->.
  erewrite json_load_written by eauto. cbv iota. rewrite Hi.
  erewrite json_dump_same by eauto. reflexivity.
Qed.

(** ** When [process_reviews_file] succeeds *)






End Properties.

(* ================================================================== *)
(** * The program at work *)

#[local] Existing Instance literal_floats.

(** C1, counterexample: on the integer 5, which is neither a string nor
    [None], [calculate_word_count] raises [AttributeError]; it does not
    return 0. *)
Lemma calculate_word_count_raises_on_int :
  calculate_word_count (PInt 5) = Raise (AttributeError TInt "split")
  /\ calculate_word_count (PInt 5) <> Ok 0.
Proof. split; [reflexivity | discriminate]. Qed.

Lemma calculate_word_count_outcomes_witness :
  (exists n, calculate_word_count (PStr (lit "one two")) = Ok n /\ 0 <= n)
  /\ calculate_word_count (PList []) = Ok 0
  /\ calculate_word_count (PBool true) = Raise (AttributeError TBool "split").
Proof.
  split; [|split].
  - apply (proj1 (calculate_word_count_outcomes (PStr (lit "one two")))).
    right. reflexivity.
  - apply (proj1 (proj2 (calculate_word_count_outcomes (PList [])))).
    reflexivity.
  - apply (proj2 (proj2 (calculate_word_count_outcomes (PBool true))));
      reflexivity.
Defined.

Lemma calculate_word_count_tokens_witness :
  calculate_word_count (dict_get_default [(lit "rating", PInt 5)] text_key)
  = Ok 0
  /\ calculate_word_count (PStr [32; 9; 10; 160; 8195]%N) = Ok 0.
Proof.
  destruct calculate_word_count_tokens as (_ & _ & _ & _ & Hmissing & Hblank & _).
  split.
  - apply Hmissing. reflexivity.
  - apply Hblank. reflexivity.
Defined.



Lemma augment_reviews_non_dict_witness :
  nth_error (fst (fst (augment_reviews (lit "data/Reviews1.json")
                         mixed_reviews))) 1
  = Some (PStr (lit "not-an-object"))
  /\ 2%nat = count_dicts mixed_reviews.
Proof.
  destruct (augment_reviews_non_dict (lit "data/Reviews1.json"))
    as (_ & _ & Hgen).
  destruct (Hgen mixed_reviews) as (_ & Hkept & Htally).
  split.
  - apply Hkept; reflexivity.
  - apply Htally. reflexivity.
Defined.



(** C7, the failing input: the directory [data[1]] exists and holds
    [Reviews1.json], yet [find_reviews_files] returns the file of the
    other directory [data1] and not the one of the directory it was
    given: the brackets are read as a pattern. *)
Theorem find_reviews_files_bracket_directory :
  listdir sample_world (lit "data[1]") false = [lit "Reviews1.json"]
  /\ find_reviews_files sample_world (lit "data[1]")
     = [lit "data1/Reviews9.json"].
Proof. split; vm_compute; reflexivity. Qed.


Lemma process_reviews_file_success_witness :
  exists (reviews reviews' : list pyval) warnings n bytes r wr,
    snd (json_load (lit "data/Reviews1.json") sample_world)
    = Ok (PList reviews)
    /\ augment_reviews (lit "data/Reviews1.json") reviews
       = (reviews', warnings, Ok n)
    /\ Forall has_wordCount reviews'
    /\ utf8_encode (List.concat (iterencode (PList reviews') 0)) = Ok bytes
    /\ stat (fst (fst (process_reviews_file (lit "data/Reviews1.json")
                         sample_world)))
            (lit "data/Reviews1.json")
       = Ok (File r wr bytes).
Proof.
  apply (@process_reviews_file_success _
           (lit "data/Reviews1.json") sample_world
           (fst (fst (process_reviews_file (lit "data/Reviews1.json")
                        sample_world)))
           (snd (fst (process_reviews_file (lit "data/Reviews1.json")
                        sample_world)))).
  vm_compute. reflexivity.
Defined.

(** C10, counterexample: the file holds an array of one string, so no
    review is to be updated; the string has a lone surrogate.  The
    file is opened for writing and nothing can be written:
    [process_reviews_file] returns [False], reports an unexpected error
    and leaves the file empty. *)
Lemma process_reviews_file_zero_updates_failure :
  snd (json_load (lit "data/Reviews8.json") sample_world)
  = Ok (PList [PStr [55296%N]])
  /\ snd (process_reviews_file (lit "data/Reviews8.json") sample_world)
     = Ok false
  /\ snd (fst (process_reviews_file (lit "data/Reviews8.json") sample_world))
     = [Warn_non_dictionary (lit "data/Reviews8.json");
        Unexpected_error (lit "data/Reviews8.json")
          (UnicodeEncodeError 55296)]
  /\ stat (fst (fst (process_reviews_file (lit "data/Reviews8.json")
                       sample_world)))
          (lit "data/Reviews8.json")
     = Ok (File true true []).
Proof. repeat split; vm_compute; reflexivity. Qed.

Lemma process_reviews_file_zero_updates_witness :
  exists w',
    json_dump (PList []) (lit "data/Reviews4.json") sample_world
    = (w', [], Ok tt)
    /\ stat w' (lit "data/Reviews4.json") = Ok (plain_file "[]")
    /\ process_reviews_file (lit "data/Reviews4.json") sample_world
       = (w', [Successfully_processed (lit "data/Reviews4.json") 0], Ok true)
    /\ process_all [lit "data/Reviews4.json"] 0 sample_world
       = (w', [Successfully_processed (lit "data/Reviews4.json") 0],
          Ok 1%nat).
Proof.
  assert (Hl : snd (json_load (lit "data/Reviews4.json") sample_world)
               = Ok (PList [])) by (vm_compute; reflexivity).
  destruct (process_reviews_file_zero_updates
              (lit "data/Reviews4.json") sample_world Hl eq_refl)
    as [Hgen Hempty].
  destruct (Hempty eq_refl true (file_bytes "[ ]")) as (w' & Hd & Hs);
    [vm_compute; reflexivity|].
  exists w'. split; [exact Hd|]. split; [exact Hs|].
  destruct (Hgen w' Hd) as (Hp & Ht & _). split; [exact Hp | exact Ht].
Defined.

(** A run in which five of the eight entries found fail (an object at
    the top level, two lone surrogates, a file that may not be written,
    a directory): the tally says so and the exit status is 0. *)
Example run_script_with_failures :
  snd (run_script [lit "ReviewEnhancer.py"] sample_world) = 0
  /\ last (snd (fst (run_script [lit "ReviewEnhancer.py"] sample_world)))
          Blank
     = Processing_complete 3 8.
Proof. split; vm_compute; reflexivity. Qed.

(** The scenario of the specification: two files, both rewritten with
    the counts, and the tally 2/2. *)
Example scenario_run :
  let res := run_script [lit "ReviewEnhancer.py"; lit "reviews"]
                        scenario_world in
  snd res = 0
  /\ snd (fst res)
     = [Found_files 2;
        Item (lit "reviews/Reviews1.json");
        Item (lit "reviews/Reviews2.json");
        Blank;
        Successfully_processed (lit "reviews/Reviews1.json") 2;
        Successfully_processed (lit "reviews/Reviews2.json") 1;
        Processing_complete 2 2]
  /\ stat (fst (fst res)) (lit "reviews/Reviews1.json")
     = Ok (plain_file "[
  {
    'text': 'good product',
    'wordCount': 2
  },
  {
    'text': '',
    'wordCount': 0
  }
]")
  /\ stat (fst (fst res)) (lit "reviews/Reviews2.json")
     = Ok (plain_file "[
  {
    'text': 'bad',
    'wordCount': 1
  }
]").
Proof. repeat split; vm_compute; reflexivity. Qed.

(** ** The further properties at work *)

Lemma triple_eta {A B C} (x : A * B * C) :
  x = (fst (fst x), snd (fst x), snd x).
Proof. now destruct x as [[a b] c]. Qed.

Lemma calculate_word_count_zero_iff_blank_witness :
  calculate_word_count (PStr [32; 9; 10; 160]%N) = Ok 0
  /\ forallb isspace (lit "") = true.
Proof.
  split.
  - apply (proj2 (@calculate_word_count_zero_iff_blank _ [32; 9; 10; 160]%N)).
    reflexivity.
  - apply (proj1 (@calculate_word_count_zero_iff_blank _ (lit ""))).
    reflexivity.
Defined.

Lemma calculate_word_count_additive_witness :
  calculate_word_count (PStr (lit "good product" ++ 10%N :: lit " fast  delivery"))
  = Ok 4.
Proof.
  rewrite (@calculate_word_count_additive _ (lit "good product")
             (lit " fast  delivery") 10%N eq_refl).
  reflexivity.
Defined.

Lemma augment_review_key_order_witness :
  map fst [(lit "rating", PInt 5); (text_key, PStr (lit "a b"));
           (wordCount, PInt 2)]
  = [lit "rating"; text_key] ++ [wordCount]
  /\ map fst [(wordCount, PInt 1); (text_key, PStr (lit "c"))]
     = [wordCount; text_key].
Proof.
  split.
  - apply (@augment_review_key_order _
             [(lit "rating", PInt 5); (text_key, PStr (lit "a b"))]).
    reflexivity.
  - apply (@augment_review_key_order _
             [(wordCount, PStr (lit "old")); (text_key, PStr (lit "c"))]).
    reflexivity.
Defined.

Lemma process_reviews_file_report_witness :
  exists (reviews : list pyval) (n : nat),
    snd (json_load (lit "data/Reviews5.json") faulty_world)
    = Ok (PList reviews)
    /\ n = count_dicts reviews
    /\ (n <= List.length reviews)%nat
    /\ [Warn_non_dictionary (lit "data/Reviews5.json");
        Warn_non_dictionary (lit "data/Reviews5.json");
        Successfully_processed (lit "data/Reviews5.json") 2]
       = repeat (Warn_non_dictionary (lit "data/Reviews5.json"))
           (List.length reviews - n)
         ++ [Successfully_processed (lit "data/Reviews5.json") n].
Proof.
  apply (@process_reviews_file_report _ (lit "data/Reviews5.json") faulty_world
           (fst (fst (process_reviews_file (lit "data/Reviews5.json")
                        faulty_world)))).
  vm_compute. reflexivity.
Defined.


Lemma process_reviews_file_frame_witness :
  get_node
    (root (fst (fst (process_reviews_file (lit "data/Reviews5.json")
                       faulty_world))))
    [lit "data"; lit "notes.txt"]
  = Some (plain_file "keep me")
  /\ get_node
       (root (fst (fst (process_reviews_file (lit "data/Reviews5.json")
                          faulty_world))))
       [lit "data"; lit "Reviews3.json"]
     = Some (plain_file "[{'text': 'a'}").
Proof.
  destruct (@process_reviews_file_frame _ (lit "data/Reviews5.json")
              faulty_world _ _ _ (triple_eta _)) as (_ & _ & Hkept).
  split.
  - apply Hkept; [vm_compute; discriminate | vm_compute; reflexivity].
  - apply Hkept; [vm_compute; discriminate | vm_compute; reflexivity].
Defined.

Lemma main_frame_witness :
  get_node
    (root (fst (fst (main [lit "ReviewEnhancer.py"; lit "data"]
                       faulty_world))))
    [lit "data"; lit "notes.txt"]
  = Some (plain_file "keep me").
Proof.
  destruct (@main_frame _ [lit "ReviewEnhancer.py"; lit "data"]
              faulty_world _ _ _ (triple_eta _)) as (_ & _ & Hkept).
  apply Hkept; [|vm_compute; reflexivity].
  intros file_path Hin. vm_compute in Hin.
  repeat (destruct Hin as [<-|Hin]; [vm_compute; discriminate|]).
  destruct Hin.
Defined.

Lemma find_reviews_files_ignores_contents_witness :
  find_reviews_files
    (fst (fst (process_reviews_file (lit "data/Reviews5.json") faulty_world)))
    (lit "data")
  = find_reviews_files faulty_world (lit "data").
Proof.
  apply (@find_reviews_files_ignores_contents
           faulty_world
           (fst (fst (process_reviews_file (lit "data/Reviews5.json")
                        faulty_world)))
           (lit "data")).
  - vm_compute. reflexivity.
  - vm_compute. reflexivity.
Defined.


Lemma find_reviews_files_sound_witness :
  exists dirname name,
    lit "data1/Reviews9.json" = path_join dirname name
    /\ In name (listdir sample_world dirname false)
    /\ is_reviews_name name = true.
Proof.
  apply (proj2 (find_reviews_files_sound sample_world (lit "data[1]"))).
  vm_compute. left. reflexivity.
Defined.



Lemma process_reviews_file_repeatable_witness :
  process_reviews_file (lit "data/Reviews5.json")
    (fst (fst (process_reviews_file (lit "data/Reviews5.json") faulty_world)))
  = (fst (fst (process_reviews_file (lit "data/Reviews5.json") faulty_world)),
     [Warn_non_dictionary (lit "data/Reviews5.json");
      Warn_non_dictionary (lit "data/Reviews5.json");
      Successfully_processed (lit "data/Reviews5.json") 2],
     Ok true).
Proof.
  apply (@process_reviews_file_repeatable _ (lit "data/Reviews5.json")
           faulty_world _ _
           [PDict [(text_key, PStr (lit "a b"))]; PStr (lit "not-an-object");
            PInt 7; PDict [(text_key, PStr (lit "c"))]]).
  - vm_compute. reflexivity.
  - vm_compute. reflexivity.
  - vm_compute. reflexivity.
Defined.

